(** * Browser session manager (src/browser.ts)

    A shallow embedding of the session manager of the Spider MCP server:
    the module-level session table and reaper timer, the exported
    operations [openSession], [getPage], [closeSession],
    [closeAllSessions], [getSessionCount], and the interval callback
    installed by [startCleanup].

    The manager runs on a single-threaded event loop.  Every [async]
    function is cut at its [await]s into synchronous segments; a segment
    is a Rocq function on the state, and the event loop is a step function
    that runs one segment per event.  Interleavings of concurrent calls
    are lists of events. *)

From Stdlib Require Import ZArith List String Ascii Bool Arith Lia.
From Stdlib Require Import DecimalString.
Import ListNotations.

Set Implicit Arguments.

(** ** The ECMAScript [Map]

    A [Map] keeps its records in insertion order.  [delete] empties a
    record in place, [set] overwrites the value of a present key and
    appends a record for a new one, and an iterator is an index into the
    record list that skips emptied records.  Iteration therefore observes
    deletions and insertions made while it is suspended, which is what the
    reaper's [for ... of sessions] loop with an [await] in its body does. *)

Module JsMap.
Section Defs.
Variable V : Type.

Definition entry : Type := option (string * V).
Definition t : Type := list entry.

Definition empty : t := [].

Fixpoint get (m : t) (k : string) : option V :=
  match m with
  | [] => None
  | None :: m' => get m' k
  | Some (k', v) :: m' => if String.eqb k' k then Some v else get m' k
  end.

Fixpoint set (m : t) (k : string) (v : V) : t :=
  match m with
  | [] => [Some (k, v)]
  | None :: m' => None :: set m' k v
  | Some (k', v') :: m' =>
      if String.eqb k' k then Some (k', v) :: m'
      else Some (k', v') :: set m' k v
  end.

Fixpoint delete (m : t) (k : string) : t :=
  match m with
  | [] => []
  | None :: m' => None :: delete m' k
  | Some (k', v') :: m' =>
      if String.eqb k' k then None :: m'
      else Some (k', v') :: delete m' k
  end.

Fixpoint size (m : t) : nat :=
  match m with
  | [] => 0
  | None :: m' => size m'
  | Some _ :: m' => S (size m')
  end.

(** [[...m.keys()]] *)
Fixpoint keys (m : t) : list string :=
  match m with
  | [] => []
  | None :: m' => keys m'
  | Some (k, _) :: m' => k :: keys m'
  end.

(** The values, in record order. *)
Fixpoint values (m : t) : list V :=
  match m with
  | [] => []
  | None :: m' => values m'
  | Some (_, v) :: m' => v :: values m'
  end.

(** Representation invariant: no key occurs in two live records. *)
Definition wf (m : t) : Prop := NoDup (keys m).

End Defs.

Section Facts.
Variable V : Type.
Implicit Types (m : t V) (k : string) (v : V).

Lemma wf_empty : wf (empty V).
Proof. constructor. Qed.

Lemma get_None_keys m k : get m k = None <-> ~ In k (keys m).
Proof.
  induction m as [|[[k' v']|] m IH]; simpl.
  - tauto.
  - destruct (String.eqb_spec k' k) as [->|Hne].
    + split; [discriminate | intros H; exfalso; apply H; now left].
    + rewrite IH. split; intros H; [intros [E|E]; [congruence | tauto] | tauto].
  - exact IH.
Qed.

Lemma get_Some_keys m k v : get m k = Some v -> In k (keys m).
Proof.
  intros H. destruct (in_dec string_dec k (keys m)) as [Hin|Hnin]; [exact Hin|].
  apply get_None_keys in Hnin. congruence.
Qed.

Lemma size_keys m : size m = List.length (keys m).
Proof.
  induction m as [|[[k' v']|] m IH]; simpl; congruence.
Qed.

(** *** [set] *)

Lemma get_set_eq m k v : get (set m k v) k = Some v.
Proof.
  induction m as [|[[k' v']|] m IH]; simpl.
  - now rewrite String.eqb_refl.
  - destruct (String.eqb_spec k' k) as [->|Hne]; simpl.
    + now rewrite String.eqb_refl.
    + destruct (String.eqb_spec k' k); [contradiction | exact IH].
  - exact IH.
Qed.

Lemma get_set_ne m k k0 v : k0 <> k -> get (set m k v) k0 = get m k0.
Proof.
  intros Hne.
  induction m as [|[[k' v']|] m IH]; simpl.
  - destruct (String.eqb_spec k k0); congruence.
  - destruct (String.eqb_spec k' k) as [->|Hk]; simpl.
    + destruct (String.eqb_spec k k0); congruence.
    + now rewrite IH.
  - exact IH.
Qed.

Lemma keys_set_present m k v :
  In k (keys m) -> keys (set m k v) = keys m.
Proof.
  induction m as [|[[k' v']|] m IH]; simpl; intros Hin.
  - contradiction.
  - destruct (String.eqb_spec k' k) as [->|Hk]; simpl; [reflexivity|].
    f_equal. apply IH. destruct Hin; [contradiction | assumption].
  - now apply IH.
Qed.

Lemma keys_set_fresh m k v :
  ~ In k (keys m) -> keys (set m k v) = keys m ++ [k].
Proof.
  induction m as [|[[k' v']|] m IH]; simpl; intros Hnin.
  - reflexivity.
  - destruct (String.eqb_spec k' k) as [->|Hk]; simpl.
    + exfalso. apply Hnin. now left.
    + f_equal. apply IH. tauto.
  - now apply IH.
Qed.

Lemma wf_set m k v : wf m -> wf (set m k v).
Proof.
  unfold wf. intros Hwf.
  destruct (in_dec string_dec k (keys m)) as [Hin|Hnin].
  - now rewrite keys_set_present.
  - rewrite keys_set_fresh by assumption.
    apply NoDup_app; [assumption | repeat constructor; simpl; tauto |].
    intros x Hx [<-|[]]. contradiction.
Qed.

Lemma size_set_fresh m k v :
  get m k = None -> size (set m k v) = S (size m).
Proof.
  intros H. apply get_None_keys in H.
  rewrite !size_keys, keys_set_fresh, List.length_app by assumption.
  simpl. lia.
Qed.

Lemma size_set_present m k v v0 :
  get m k = Some v0 -> size (set m k v) = size m.
Proof.
  intros H. apply get_Some_keys in H.
  now rewrite !size_keys, keys_set_present.
Qed.

(** *** [delete] *)

Lemma delete_absent m k : get m k = None -> delete m k = m.
Proof.
  induction m as [|[[k' v']|] m IH]; simpl; intros H.
  - reflexivity.
  - destruct (String.eqb k' k); [discriminate | now rewrite IH].
  - now rewrite IH.
Qed.

Lemma get_delete_ne m k k0 : k0 <> k -> get (delete m k) k0 = get m k0.
Proof.
  intros Hne.
  induction m as [|[[k' v']|] m IH]; simpl.
  - reflexivity.
  - destruct (String.eqb_spec k' k) as [->|Hk]; simpl.
    + destruct (String.eqb_spec k k0); congruence.
    + now rewrite IH.
  - exact IH.
Qed.

Lemma get_delete_eq m k : wf m -> get (delete m k) k = None.
Proof.
  unfold wf.
  induction m as [|[[k' v']|] m IH]; simpl; intros Hwf.
  - reflexivity.
  - inversion Hwf as [|? ? Hnin Hnd]; subst.
    destruct (String.eqb_spec k' k) as [->|Hk]; simpl.
    + now apply get_None_keys.
    + destruct (String.eqb_spec k' k); [contradiction | now apply IH].
  - now apply IH.
Qed.

Lemma get_delete_None m k k0 : get m k0 = None -> get (delete m k) k0 = None.
Proof.
  intros H. destruct (string_dec k0 k) as [->|Hne].
  - now rewrite delete_absent.
  - now rewrite get_delete_ne.
Qed.

Lemma keys_delete_incl m k x : In x (keys (delete m k)) -> In x (keys m).
Proof.
  induction m as [|[[k' v']|] m IH]; simpl.
  - tauto.
  - destruct (String.eqb_spec k' k) as [->|Hk]; simpl; tauto.
  - exact IH.
Qed.

Lemma wf_delete m k : wf m -> wf (delete m k).
Proof.
  unfold wf.
  induction m as [|[[k' v']|] m IH]; simpl; intros Hwf.
  - constructor.
  - inversion Hwf as [|? ? Hnin Hnd]; subst.
    destruct (String.eqb_spec k' k) as [->|Hk]; simpl.
    + assumption.
    + constructor; [|now apply IH].
      intros Hin. apply Hnin. eapply keys_delete_incl; eassumption.
  - now apply IH.
Qed.

Lemma size_delete_present m k v :
  get m k = Some v -> S (size (delete m k)) = size m.
Proof.
  induction m as [|[[k' v']|] m IH]; simpl.
  - discriminate.
  - destruct (String.eqb_spec k' k) as [->|Hk]; simpl; intros H.
    + reflexivity.
    + now rewrite IH.
  - exact IH.
Qed.

Lemma size_delete_le m k : size (delete m k) <= size m.
Proof.
  destruct (get m k) as [v|] eqn:E.
  - pose proof (size_delete_present _ _ E). lia.
  - now rewrite delete_absent.
Qed.

End Facts.
End JsMap.

Unset Implicit Arguments.

(** ** Data model *)

Definition SESSION_TIMEOUT_MS : Z := 5 * 60 * 1000.
Definition MAX_SESSIONS : nat := 5.

(** A thrown [Error]; the manager has no error classes of its own. *)
Inductive exn : Type := Error (message : string).

(** A connected remote browser.  [bid] is the identity of the JS object
    (every successful connect yields a new object); [closeThrows] says
    whether its [close()] raises at the call instead of returning a
    promise that settles later. *)
Record Browser : Type := mkBrowser { bid : nat; closeThrows : bool }.

Definition Page : Type := nat.

Record Session : Type := mkSession {
  browser : Browser;
  page : Page;
  lastAccess : Z
}.

(** The [options] argument of [openSession]; an absent field is [None]. *)
Record Options : Type := mkOptions {
  opt_browser : option string;
  opt_stealth : option Z;
  opt_country : option string;
  opt_mode : option string
}.

Record OpenResult : Type := mkOpenResult {
  sessionId : string;
  browserType : string
}.

(** The module-level variables [sessions] and [cleanupTimer], followed by
    what the runtime and the collaborators hold: the armed [setInterval]
    handles, the counters that name new handles and new browser objects,
    the log of [browser.close()] invocations, and the registered
    ["disconnected"] listeners (browser, captured session id). *)
Record State : Type := mkState {
  sessions : JsMap.t Session;
  cleanupTimer : option nat;
  intervals : list nat;
  nextInterval : nat;
  nextBrowser : nat;
  closeCalls : list nat;
  listeners : list (nat * string)
}.

Definition initial_state : State :=
  mkState (JsMap.empty Session) None [] 0 0 [] [].

Definition with_sessions (m : JsMap.t Session) (st : State) : State :=
  mkState m (cleanupTimer st) (intervals st) (nextInterval st)
          (nextBrowser st) (closeCalls st) (listeners st).

(** [clearInterval(cleanupTimer); cleanupTimer = null] *)
Definition clearCleanup (t : nat) (st : State) : State :=
  mkState (sessions st) None (List.remove Nat.eq_dec t (intervals st))
          (nextInterval st) (nextBrowser st) (closeCalls st) (listeners st).

(** [browser.on("disconnected", () => sessions.delete(sessionId))] *)
Definition on_disconnected (b : Browser) (id : string) (st : State) : State :=
  mkState (sessions st) (cleanupTimer st) (intervals st) (nextInterval st)
          (nextBrowser st) (closeCalls st) (listeners st ++ [(bid b, id)]).

(** The call [b.close()] itself: the teardown begins. *)
Definition browser_close (b : Browser) (st : State) : State :=
  mkState (sessions st) (cleanupTimer st) (intervals st) (nextInterval st)
          (nextBrowser st) (closeCalls st ++ [bid b]) (listeners st).

(** A resolved [puppeteer.connect]: a new browser object. *)
Definition new_browser (throws : bool) (st : State) : Browser * State :=
  (mkBrowser (nextBrowser st) throws,
   mkState (sessions st) (cleanupTimer st) (intervals st) (nextInterval st)
           (S (nextBrowser st)) (closeCalls st) (listeners st)).

(** ** The operations, one definition per synchronous segment *)

Definition getSessionCount (st : State) : nat := JsMap.size (sessions st).

Definition startCleanup (st : State) : State :=
  match cleanupTimer st with
  | Some _ => st
  | None =>
      let t := nextInterval st in
      mkState (sessions st) (Some t) (t :: intervals st) (S t)
              (nextBrowser st) (closeCalls st) (listeners st)
  end.

Definition capacity_message : string :=
  String.append "Maximum "
    (String.append (NilEmpty.string_of_uint (Nat.to_uint MAX_SESSIONS))
       (String.append " concurrent browser sessions reached. "
          "Close an existing session with spider_browser_close first.")).

Definition not_found_message : string :=
  String.append
    "Browser session not found. It may have expired (5 min idle timeout) or been closed. "
    "Open a new session with spider_browser_open.".

(** [openSession], from its entry to [await puppeteer.connect(...)]:
    the capacity check.  [Some e] is the thrown error; [None] means the
    call went on to connect and is suspended.  The endpoint URL built from
    [apiKey] and [options] goes to the collaborator and touches no state. *)
Definition openSession_enter (st : State) : option exn :=
  if MAX_SESSIONS <=? getSessionCount st
  then Some (Error capacity_message)
  else None.

(** [options?.browser] *)
Definition requested_browser (options : option Options) : option string :=
  match options with
  | Some o => opt_browser o
  | None => None
  end.

(** [options?.browser ?? "chrome"] *)
Definition resolved_browserType (options : option Options) : string :=
  match requested_browser options with
  | Some s => s
  | None => "chrome"%string
  end.

(** [openSession], from the point where [page] is known to its [return]. *)
Definition openSession_finish (st : State) (options : option Options)
    (b : Browser) (p : Page) (uuid : string) (now : Z) : State * OpenResult :=
  let st1 := with_sessions (JsMap.set (sessions st) uuid (mkSession b p now)) st in
  let st2 := on_disconnected b uuid st1 in
  let st3 := startCleanup st2 in
  (st3, mkOpenResult uuid (resolved_browserType options)).

Definition getPage (st : State) (id : string) (now : Z)
    : State * (exn + Page) :=
  match JsMap.get (sessions st) id with
  | None => (st, inl (Error not_found_message))
  | Some session =>
      (with_sessions
         (JsMap.set (sessions st) id
            (mkSession (browser session) (page session) now)) st,
       inr (page session))
  end.

(** [closeSession], up to its [await].  The boolean tells whether the
    call is now suspended on the teardown promise ([true]) or has already
    returned ([false]: the id was absent, or [close()] raised and the
    [catch] swallowed it). *)
Definition closeSession (st : State) (id : string) : State * bool :=
  match JsMap.get (sessions st) id with
  | None => (st, false)
  | Some session =>
      let st1 := with_sessions (JsMap.delete (sessions st) id) st in
      let st2 := browser_close (browser session) st1 in
      (st2, negb (closeThrows (browser session)))
  end.

(** The reaper's loop head: advance the iterator from record [pos] to the
    next live record whose session is idle; the result is the iterator
    position after that record, and its key. *)
Fixpoint next_idle (now : Z) (m : JsMap.t Session) (pos : nat)
    : option (nat * string) :=
  match m with
  | [] => None
  | None :: m' => next_idle now m' (S pos)
  | Some (id, session) :: m' =>
      if (now - lastAccess session >? SESSION_TIMEOUT_MS)%Z
      then Some (S pos, id)
      else next_idle now m' (S pos)
  end.

(** One segment of the interval callback, entered with the iterator at
    [pos]: either it reaches an idle session, calls [closeSession] and
    suspends on it ([Some pos']), or the loop ends and the final test
    clears the timer when the table is empty ([None]). *)
Definition tick_from (st : State) (now : Z) (pos : nat) : State * option nat :=
  match next_idle now (skipn pos (sessions st)) pos with
  | Some (pos', id) => (fst (closeSession st id), Some pos')
  | None =>
      (match cleanupTimer st with
       | Some t => if getSessionCount st =? 0 then clearCleanup t st else st
       | None => st
       end, None)
  end.

(** [ids.map(closeSession)]: the calls run one after the other, each up to
    its [await]; the count is the number of teardowns still pending. *)
Fixpoint closeEach (st : State) (ids : list string) : State * nat :=
  match ids with
  | [] => (st, 0)
  | id :: ids' =>
      let (st1, awaiting) := closeSession st id in
      let (st2, n) := closeEach st1 ids' in
      (st2, (if awaiting then 1 else 0) + n)
  end.

(** [closeAllSessions], up to [await Promise.allSettled(...)]. *)
Definition closeAllSessions_enter (st : State) : State * nat :=
  closeEach st (JsMap.keys (sessions st)).

(** [closeAllSessions], after the [await]. *)
Definition closeAllSessions_finish (st : State) : State :=
  match cleanupTimer st with
  | Some t => clearCleanup t st
  | None => st
  end.

(** The connection emits ["disconnected"]: every listener registered on
    it runs. *)
Fixpoint run_listeners (b : nat) (ls : list (nat * string)) (st : State) : State :=
  match ls with
  | [] => st
  | (b', id) :: ls' =>
      run_listeners b ls'
        (if b' =? b then with_sessions (JsMap.delete (sessions st) id) st else st)
  end.

Definition emit_disconnected (b : nat) (st : State) : State :=
  run_listeners b (listeners st) st.

(** ** The event loop *)

(** A suspended call: the [await] it is parked at, with its live locals. *)
Inductive Task : Type :=
| OpenConnecting (apiKey : string) (options : option Options)
    (* openSession at [await puppeteer.connect(...)] *)
| OpenListingPages (options : option Options) (b : Browser)
    (* openSession at [await browser.pages()] *)
| OpenCreatingPage (options : option Options) (b : Browser)
    (* openSession at [await browser.newPage()] *)
| CloseTearingDown
    (* closeSession at [await session.browser.close()] *)
| TickClosing (now : Z) (pos : nat)
    (* interval callback at [await closeSession(id)] *)
| CloseAllSettling (pending : nat)
    (* closeAllSessions at [await Promise.allSettled(...)] *).

(** What an awaited promise settles with. *)
Inductive Value : Type :=
| VBrowser (throws : bool)
| VPages (pages : list Page)
| VPage (p : Page)
| VDone
| VError (e : exn).

(** What the event loop can be handed next: a call from the tool
    dispatcher, the interval [t] firing (the 60 s period is not modelled:
    a tick may come at any time while the interval is armed), the promise
    awaited by suspended task [k] settling with [v], or browser [b]
    emitting ["disconnected"]. *)
Inductive Event : Type :=
| CallOpen (apiKey : string) (options : option Options)
| CallGetPage (id : string)
| CallClose (id : string)
| CallCloseAll
| Fire (t : nat)
| Resume (k : nat) (v : Value)
| Disconnected (b : nat).

(** What a call hands back to its caller. *)
Inductive Output : Type :=
| OpenResolved (r : OpenResult)
| OpenRejected (e : exn)
| PageReturned (p : Page)
| PageThrown (e : exn)
| CloseResolved
| CloseAllResolved.

(** The readings a segment takes from the runtime: [Date.now()] and
    [crypto.randomUUID()]. *)
Record Env : Type := mkEnv { clock : Z; uuid : string }.

Record Config : Type := mkConfig {
  state : State;
  pool : list (option Task);
  outs : list Output
}.

Definition initial : Config := mkConfig initial_state [] [].

Fixpoint update {A : Type} (l : list A) (k : nat) (x : A) : list A :=
  match l, k with
  | [], _ => []
  | _ :: l', 0 => x :: l'
  | y :: l', S k' => y :: update l' k' x
  end.

Definition spawn (t : Task) (c : Config) : Config :=
  mkConfig (state c) (pool c ++ [Some t]) (outs c).

Definition suspend (k : nat) (t : Task) (c : Config) : Config :=
  mkConfig (state c) (update (pool c) k (Some t)) (outs c).

Definition retire (k : nat) (c : Config) : Config :=
  mkConfig (state c) (update (pool c) k None) (outs c).

Definition emit (o : Output) (c : Config) : Config :=
  mkConfig (state c) (pool c) (outs c ++ [o]).

Definition with_state (st : State) (c : Config) : Config :=
  mkConfig st (pool c) (outs c).

Definition finish_open (env : Env) (k : nat) (options : option Options)
    (b : Browser) (p : Page) (c : Config) : Config :=
  let (st', r) := openSession_finish (state c) options b p (uuid env) (clock env) in
  emit (OpenResolved r) (retire k (with_state st' c)).

(** Task [k] wakes up with the settled value [v]. *)
Definition resume (env : Env) (k : nat) (task : Task) (v : Value) (c : Config)
    : option Config :=
  match task with
  | OpenConnecting _ options =>
      match v with
      | VBrowser throws =>
          let (b, st') := new_browser throws (state c) in
          Some (suspend k (OpenListingPages options b) (with_state st' c))
      | VError e => Some (emit (OpenRejected e) (retire k c))
      | _ => None
      end
  | OpenListingPages options b =>
      match v with
      | VPages (p :: _) => Some (finish_open env k options b p c)
      | VPages [] => Some (suspend k (OpenCreatingPage options b) c)
      | VError e => Some (emit (OpenRejected e) (retire k c))
      | _ => None
      end
  | OpenCreatingPage options b =>
      match v with
      | VPage p => Some (finish_open env k options b p c)
      | VError e => Some (emit (OpenRejected e) (retire k c))
      | _ => None
      end
  | CloseTearingDown =>
      match v with
      | VDone | VError _ => Some (emit CloseResolved (retire k c))
      | _ => None
      end
  | TickClosing now pos =>
      match v with
      | VDone | VError _ =>
          match tick_from (state c) now pos with
          | (st', Some pos') => Some (suspend k (TickClosing now pos') (with_state st' c))
          | (st', None) => Some (retire k (with_state st' c))
          end
      | _ => None
      end
  | CloseAllSettling (S n) =>
      match v with
      | VDone | VError _ => Some (suspend k (CloseAllSettling n) c)
      | _ => None
      end
  | CloseAllSettling 0 =>
      match v with
      | VDone =>
          Some (emit CloseAllResolved
                  (retire k (with_state (closeAllSessions_finish (state c)) c)))
      | _ => None
      end
  end.

(** One turn of the event loop.  [None]: the event cannot occur in this
    configuration (no such task, timer not armed, value of the wrong
    kind). *)
Definition step (env : Env) (ev : Event) (c : Config) : option Config :=
  match ev with
  | CallOpen apiKey options =>
      match openSession_enter (state c) with
      | Some e => Some (emit (OpenRejected e) c)
      | None => Some (spawn (OpenConnecting apiKey options) c)
      end
  | CallGetPage id =>
      match getPage (state c) id (clock env) with
      | (st', inl e) => Some (emit (PageThrown e) (with_state st' c))
      | (st', inr p) => Some (emit (PageReturned p) (with_state st' c))
      end
  | CallClose id =>
      match closeSession (state c) id with
      | (st', true) => Some (spawn CloseTearingDown (with_state st' c))
      | (st', false) => Some (emit CloseResolved (with_state st' c))
      end
  | CallCloseAll =>
      let (st', n) := closeAllSessions_enter (state c) in
      Some (spawn (CloseAllSettling n) (with_state st' c))
  | Fire t =>
      if existsb (Nat.eqb t) (intervals (state c)) then
        match tick_from (state c) (clock env) 0 with
        | (st', Some pos') => Some (spawn (TickClosing (clock env) pos') (with_state st' c))
        | (st', None) => Some (with_state st' c)
        end
      else None
  | Resume k v =>
      match nth_error (pool c) k with
      | Some (Some task) => resume env k task v c
      | _ => None
      end
  | Disconnected b => Some (with_state (emit_disconnected b (state c)) c)
  end.

Fixpoint run (evs : list (Env * Event)) (c : Config) : option Config :=
  match evs with
  | [] => Some c
  | (env, ev) :: evs' =>
      match step env ev c with
      | Some c' => run evs' c'
      | None => None
      end
  end.

(** [includes needle s]: [needle] occurs in [s]. *)
Fixpoint includes (needle s : string) : bool :=
  String.prefix needle s ||
  match s with
  | EmptyString => false
  | String _ s' => includes needle s'
  end.

(** ** Invariants of the state that every segment preserves

    [Q] is a property of the state.  [fresh] restricts the identifiers
    that [crypto.randomUUID()] may return, and [Shutdown] says whether
    [closeAllSessions] takes part in the runs considered. *)

Definition no_closeAll (ts : list (option Task)) : Prop :=
  forall n, ~ In (Some (CloseAllSettling n)) ts.

Section StateInvariant.
Variable Q : State -> Prop.
Variable fresh : string -> Prop.
Variable Shutdown : Prop.

Hypothesis Q_finish : forall st options b p id now,
  Q st -> fresh id -> Q (fst (openSession_finish st options b p id now)).
Hypothesis Q_getPage : forall st id now, Q st -> Q (fst (getPage st id now)).
Hypothesis Q_closeSession : forall st id, Q st -> Q (fst (closeSession st id)).
Hypothesis Q_delete : forall st id,
  Q st -> Q (with_sessions (JsMap.delete (sessions st) id) st).
Hypothesis Q_connect : forall st throws, Q st -> Q (snd (new_browser throws st)).
Hypothesis Q_tick_clear : forall st t,
  Q st -> cleanupTimer st = Some t -> getSessionCount st = 0 ->
  Q (clearCleanup t st).
Hypothesis Q_shutdown : forall st,
  Shutdown -> Q st -> Q (closeAllSessions_finish st).

Lemma inv_tick_from st now pos : Q st -> Q (fst (tick_from st now pos)).
Proof.
  intros H. unfold tick_from.
  destruct (next_idle now (skipn pos (sessions st)) pos) as [[pos' id]|]; simpl.
  - now apply Q_closeSession.
  - destruct (cleanupTimer st) as [t|] eqn:Et; [|assumption].
    destruct (Nat.eqb_spec (getSessionCount st) 0); auto.
Qed.

Lemma inv_closeEach ids : forall st, Q st -> Q (fst (closeEach st ids)).
Proof.
  induction ids as [|id ids IH]; intros st H; simpl; [assumption|].
  pose proof (Q_closeSession st id H) as H1.
  destruct (closeSession st id) as [st1 aw]. simpl in H1.
  specialize (IH st1 H1).
  destruct (closeEach st1 ids) as [st2 n]. exact IH.
Qed.

Lemma inv_run_listeners b ls : forall st, Q st -> Q (run_listeners b ls st).
Proof.
  induction ls as [|[b' id] ls IH]; intros st H; simpl; [assumption|].
  apply IH. destruct (b' =? b); auto.
Qed.

Lemma inv_resume env k task v c c' :
  Q (state c) -> fresh (uuid env) ->
  Shutdown \/ no_closeAll (pool c) ->
  nth_error (pool c) k = Some (Some task) ->
  resume env k task v c = Some c' -> Q (state c').
Proof.
  intros H Hfresh Hshut Hk Hr. unfold resume, finish_open in Hr.
  pose proof (fun o b p => Q_finish (state c) o b p (uuid env) (clock env) H Hfresh) as Hf.
  destruct task as [key o|o b|o b| |now pos|[|n]]; destruct v as [thr|[|p ps]|p| |e];
    try discriminate.
  all: try (injection Hr as <-; exact H).
  all: try (specialize (Hf o b p);
            destruct (openSession_finish (state c) o b p (uuid env) (clock env));
            injection Hr as <-; exact Hf).
  all: try (pose proof (inv_tick_from (state c) now pos H) as Ht;
            destruct (tick_from (state c) now pos) as [st' [pos'|]];
            injection Hr as <-; exact Ht).
  - injection Hr as <-. exact (Q_connect (state c) thr H).
  - injection Hr as <-. simpl. destruct Hshut as [Hs|Hn].
    + now apply Q_shutdown.
    + exfalso. apply (Hn 0). eapply nth_error_In; eassumption.
Qed.

Lemma inv_step env ev c c' :
  Q (state c) -> fresh (uuid env) ->
  Shutdown \/ (no_closeAll (pool c) /\ ev <> CallCloseAll) ->
  step env ev c = Some c' -> Q (state c').
Proof.
  intros H Hfresh Hshut Hs. destruct ev as [key o|id|id| |t|k v|b]; simpl in Hs.
  - destruct (openSession_enter (state c)); injection Hs as <-; exact H.
  - pose proof (Q_getPage (state c) id (clock env) H) as Hg.
    destruct (getPage (state c) id (clock env)) as [st' [e|p]];
      injection Hs as <-; exact Hg.
  - pose proof (Q_closeSession (state c) id H) as Hc.
    destruct (closeSession (state c) id) as [st' [|]];
      injection Hs as <-; exact Hc.
  - unfold closeAllSessions_enter in Hs.
    pose proof (inv_closeEach (JsMap.keys (sessions (state c))) (state c) H) as Hc.
    destruct (closeEach (state c) (JsMap.keys (sessions (state c)))) as [st' n].
    injection Hs as <-. exact Hc.
  - destruct (existsb (Nat.eqb t) (intervals (state c))); [|discriminate].
    pose proof (inv_tick_from (state c) (clock env) 0 H) as Ht.
    destruct (tick_from (state c) (clock env) 0) as [st' [pos'|]];
      injection Hs as <-; exact Ht.
  - destruct (nth_error (pool c) k) as [[task|]|] eqn:Ek; try discriminate.
    eapply inv_resume; try eassumption. tauto.
  - injection Hs as <-. simpl. now apply inv_run_listeners.
Qed.
End StateInvariant.

(** Without [closeAllSessions] among the events, no task of it appears. *)
Lemma in_update {A : Type} (l : list A) k x y :
  In y (update l k x) -> y = x \/ In y l.
Proof.
  revert k. induction l as [|a l IH]; intros [|k]; simpl; try tauto.
  - intros [E|Hin]; auto.
  - intros [E|Hin]; [tauto|]. destruct (IH _ Hin); tauto.
Qed.

Lemma step_no_closeAll env ev c c' :
  no_closeAll (pool c) -> ev <> CallCloseAll ->
  step env ev c = Some c' -> no_closeAll (pool c').
Proof.
  intros Hn Hev Hs.
  assert (Hspawn : forall t, (forall n, t <> CloseAllSettling n) ->
            no_closeAll (pool c ++ [Some t])).
  { intros t Ht n Hin. apply in_app_or in Hin as [Hin|[E|[]]].
    - exact (Hn n Hin).
    - injection E as E. exact (Ht n E). }
  assert (Hupd : forall k t, (forall n, t <> Some (CloseAllSettling n)) ->
            no_closeAll (update (pool c) k t)).
  { intros k t Ht n Hin. apply in_update in Hin as [E|Hin].
    - exact (Ht n (eq_sym E)).
    - exact (Hn n Hin). }
  destruct ev as [key o|id|id| |t|k v|b]; simpl in Hs.
  - destruct (openSession_enter (state c)); injection Hs as <-; simpl;
      [assumption | apply Hspawn; discriminate].
  - destruct (getPage (state c) id (clock env)) as [st' [e|p]];
      injection Hs as <-; exact Hn.
  - destruct (closeSession (state c) id) as [st' [|]];
      injection Hs as <-; simpl; [apply Hspawn; discriminate | assumption].
  - congruence.
  - destruct (existsb (Nat.eqb t) (intervals (state c))); [|discriminate].
    destruct (tick_from (state c) (clock env) 0) as [st' [pos'|]];
      injection Hs as <-; simpl; [apply Hspawn; discriminate | assumption].
  - destruct (nth_error (pool c) k) as [[task|]|] eqn:Ek; try discriminate.
    unfold resume, finish_open in Hs.
    destruct task as [key o|o b|o b| |now pos|n].
    6:{ exfalso. apply (Hn n). eapply nth_error_In; eassumption. }
    all: destruct v as [thr|[|p ps]|p| |e]; try discriminate.
    all: try (destruct (openSession_finish (state c) o b p (uuid env) (clock env)));
         try (destruct (tick_from (state c) now pos) as [st' [pos'|]]);
         injection Hs as <-; simpl; apply Hupd; discriminate.
  - injection Hs as <-. exact Hn.
Qed.

Lemma run_invariant (P : Config -> Prop) (ok : Env * Event -> Prop) :
  (forall env ev c c', P c -> ok (env, ev) -> step env ev c = Some c' -> P c') ->
  forall evs c c', P c -> Forall ok evs -> run evs c = Some c' -> P c'.
Proof.
  intros Hstep. induction evs as [|[env ev] evs IH]; intros c c' H Hok Hr; simpl in Hr.
  - injection Hr as <-. exact H.
  - destruct (step env ev c) as [c1|] eqn:Es; [|discriminate].
    inversion Hok as [|? ? Hok1 Hok2]; subst.
    eapply IH; [|eassumption|eassumption]. eapply Hstep; eassumption.
Qed.

Lemma run_app evs1 : forall evs2 c,
  run (evs1 ++ evs2) c =
  match run evs1 c with Some c1 => run evs2 c1 | None => None end.
Proof.
  induction evs1 as [|[env ev] evs1 IH]; intros evs2 c; simpl; [reflexivity|].
  destruct (step env ev c); [apply IH | reflexivity].
Qed.

(** *** What each primitive leaves alone *)

Lemma sessions_startCleanup st : sessions (startCleanup st) = sessions st.
Proof. unfold startCleanup. now destruct (cleanupTimer st). Qed.

Lemma closeCalls_startCleanup st : closeCalls (startCleanup st) = closeCalls st.
Proof. unfold startCleanup. now destruct (cleanupTimer st). Qed.

Lemma nextBrowser_startCleanup st : nextBrowser (startCleanup st) = nextBrowser st.
Proof. unfold startCleanup. now destruct (cleanupTimer st). Qed.

Lemma sessions_openSession_finish st options b p id now :
  sessions (fst (openSession_finish st options b p id now)) =
  JsMap.set (sessions st) id (mkSession b p now).
Proof. unfold openSession_finish. simpl. now rewrite sessions_startCleanup. Qed.

Lemma closeSession_absent st id :
  JsMap.get (sessions st) id = None -> closeSession st id = (st, false).
Proof. intros H. unfold closeSession. now rewrite H. Qed.

Lemma closeSession_present st id session :
  JsMap.get (sessions st) id = Some session ->
  closeSession st id =
  (browser_close (browser session)
     (with_sessions (JsMap.delete (sessions st) id) st),
   negb (closeThrows (browser session))).
Proof. intros H. unfold closeSession. now rewrite H. Qed.

Lemma sessions_closeSession st id :
  sessions (fst (closeSession st id)) = JsMap.delete (sessions st) id.
Proof.
  unfold closeSession. destruct (JsMap.get (sessions st) id) eqn:E; simpl.
  - reflexivity.
  - now rewrite JsMap.delete_absent.
Qed.

Lemma cleanupTimer_closeSession st id :
  cleanupTimer (fst (closeSession st id)) = cleanupTimer st /\
  intervals (fst (closeSession st id)) = intervals st.
Proof.
  unfold closeSession. now destruct (JsMap.get (sessions st) id).
Qed.

Lemma getPage_absent st id now :
  JsMap.get (sessions st) id = None ->
  getPage st id now = (st, inl (Error not_found_message)).
Proof. intros H. unfold getPage. now rewrite H. Qed.

Lemma getPage_present st id now session :
  JsMap.get (sessions st) id = Some session ->
  getPage st id now =
  (with_sessions
     (JsMap.set (sessions st) id
        (mkSession (browser session) (page session) now)) st,
   inr (page session)).
Proof. intros H. unfold getPage. now rewrite H. Qed.

(** *** The table stays well formed *)

Definition wf_state (st : State) : Prop := JsMap.wf (sessions st).

Lemma step_wf env ev c c' :
  wf_state (state c) -> step env ev c = Some c' -> wf_state (state c').
Proof.
  intros H Hs.
  refine (inv_step wf_state (fun _ => True) True _ _ _ _ _ _ _ env ev c c' H I (or_introl I) Hs);
    unfold wf_state; clear; intros.
  - rewrite sessions_openSession_finish. now apply JsMap.wf_set.
  - unfold getPage. destruct (JsMap.get (sessions st) id); simpl; [|assumption].
    now apply JsMap.wf_set.
  - rewrite sessions_closeSession. now apply JsMap.wf_delete.
  - simpl. now apply JsMap.wf_delete.
  - assumption.
  - assumption.
  - unfold closeAllSessions_finish. now destruct (cleanupTimer st).
Qed.

Lemma run_wf evs c c' :
  wf_state (state c) -> run evs c = Some c' -> wf_state (state c').
Proof.
  intros H Hr.
  apply (run_invariant (fun c => wf_state (state c)) (fun _ => True))
    with (evs := evs) (c := c); auto.
  - intros. eapply step_wf; eassumption.
  - clear. induction evs; constructor; auto.
Qed.

(** Every state a run reaches from the initial one is well formed. *)
Lemma reachable_wf evs c :
  run evs initial = Some c -> wf_state (state c).
Proof.
  apply run_wf. unfold wf_state. simpl. apply JsMap.wf_empty.
Qed.

(** *** The timer reference names the one armed interval *)

Definition timer_tracked (st : State) : Prop :=
  intervals st = match cleanupTimer st with Some t => [t] | None => [] end.

Lemma step_timer_tracked env ev c c' :
  timer_tracked (state c) -> step env ev c = Some c' -> timer_tracked (state c').
Proof.
  intros H Hs.
  assert (Hclear : forall st t, timer_tracked st -> cleanupTimer st = Some t ->
            timer_tracked (clearCleanup t st)).
  { unfold timer_tracked. intros st t Ht Et. rewrite Et in Ht. simpl.
    rewrite Ht. simpl. now destruct (Nat.eq_dec t t). }
  refine (inv_step timer_tracked (fun _ => True) True _ _ _ _ _ _ _ env ev c c' H I (or_introl I) Hs);
    clear - Hclear; intros.
  - unfold openSession_finish, startCleanup, timer_tracked in *. simpl.
    destruct (cleanupTimer st) eqn:E; simpl; rewrite ?E; [assumption | now rewrite H].
  - unfold getPage. destruct (JsMap.get (sessions st) id); simpl; assumption.
  - unfold closeSession. destruct (JsMap.get (sessions st) id); simpl; assumption.
  - assumption.
  - assumption.
  - auto.
  - unfold closeAllSessions_finish. destruct (cleanupTimer st) eqn:E; auto.
Qed.

Lemma run_timer_tracked evs c c' :
  timer_tracked (state c) -> run evs c = Some c' -> timer_tracked (state c').
Proof.
  intros H Hr.
  apply (run_invariant (fun c => timer_tracked (state c)) (fun _ => True))
    with (evs := evs) (c := c); auto.
  - intros. eapply step_timer_tracked; eassumption.
  - clear. induction evs; constructor; auto.
Qed.

(** *** The task pool *)

Lemma nth_error_update_eq {A : Type} (l : list A) k x y :
  nth_error l k = Some y -> nth_error (update l k x) k = Some x.
Proof.
  revert k. induction l as [|a l IH]; intros [|k]; simpl; try discriminate; auto.
Qed.

Lemma nth_error_spawned {A : Type} (l : list A) x :
  nth_error (l ++ [x]) (List.length l) = Some x.
Proof.
  rewrite nth_error_app2 by lia. now rewrite Nat.sub_diag.
Qed.

(** ** Worked runs used as concrete inputs *)

(** A call of [openSession] that runs to completion before anything else
    happens: the call, the connect settling, [browser.pages()] settling
    with one page. *)
Definition open_alone (k : nat) (now : Z) (id : string) (options : option Options)
    : list (Env * Event) :=
  [ (mkEnv now id, CallOpen "key"%string options);
    (mkEnv now id, Resume k (VBrowser false));
    (mkEnv now id, Resume k (VPages [0])) ].

Definition run_or_initial (evs : list (Env * Event)) : Config :=
  match run evs initial with
  | Some c => c
  | None => initial
  end.

Definition five_ids : list string :=
  ["s1"; "s2"; "s3"; "s4"; "s5"]%string.

Definition five_opens : list (Env * Event) :=
  (open_alone 0 0 "s1" None ++ open_alone 1 0 "s2" None ++
   open_alone 2 0 "s3" None ++ open_alone 3 0 "s4" None ++
   open_alone 4 0 "s5" None).

(** Five sessions, opened one after the other. *)
Definition full_house : Config := run_or_initial five_opens.

(** One session ["s1"], opened at time 0. *)
Definition one_session : Config := run_or_initial (open_alone 0 0 "s1"%string None).

(** ** C1: admission control *)

(** C1.  Whenever [openSession] is called while the table holds exactly
    [MAX_SESSIONS] = 5 sessions, the call is rejected with the error
    whose message is [capacity_message]; that message contains
    "Maximum 5" and tells the caller to close an existing session with
    spider_browser_close first; and the failed call changes nothing: the
    state (session table, count, timer), and the pool of suspended calls
    are as before. *)
Theorem openSession_rejects_at_capacity :
  forall env apiKey options c,
    getSessionCount (state c) = MAX_SESSIONS ->
    exists c',
      step env (CallOpen apiKey options) c = Some c' /\
      outs c' = outs c ++ [OpenRejected (Error capacity_message)] /\
      includes "Maximum 5" capacity_message = true /\
      includes "Close an existing session with spider_browser_close first"
        capacity_message = true /\
      state c' = state c /\
      sessions (state c') = sessions (state c) /\
      getSessionCount (state c') = getSessionCount (state c) /\
      pool c' = pool c.
Proof.
  intros env apiKey options c Hfull.
  exists (emit (OpenRejected (Error capacity_message)) c).
  simpl. unfold openSession_enter. rewrite Hfull. simpl.
  repeat split; reflexivity.
Qed.

Lemma openSession_rejects_at_capacity_witness :
  getSessionCount (state full_house) = MAX_SESSIONS /\
  exists c',
    step (mkEnv 0 "s6") (CallOpen "key" None) full_house = Some c' /\
    outs c' = outs full_house ++ [OpenRejected (Error capacity_message)] /\
    includes "Maximum 5" capacity_message = true /\
    includes "Close an existing session with spider_browser_close first"
      capacity_message = true /\
    state c' = state full_house /\
    sessions (state c') = sessions (state full_house) /\
    getSessionCount (state c') = getSessionCount (state full_house) /\
    pool c' = pool full_house.
Proof.
  split; [reflexivity|].
  apply (openSession_rejects_at_capacity (mkEnv 0 "s6") "key" None full_house).
  reflexivity.
Defined.

(** The scenario of the specification: five opens succeed with distinct
    ids, the sixth is rejected, and after closing one session a new open
    succeeds. *)
Example capacity_scenario :
  exists c5 c6 c7 c8,
    run five_opens initial = Some c5 /\
    getSessionCount (state c5) = 5 /\
    JsMap.keys (sessions (state c5)) = five_ids /\
    NoDup five_ids /\
    step (mkEnv 1 "s6") (CallOpen "key" None) c5 = Some c6 /\
    outs c6 = outs c5 ++ [OpenRejected (Error capacity_message)] /\
    step (mkEnv 2 "") (CallClose "s3") c6 = Some c7 /\
    getSessionCount (state c7) = 4 /\
    run (open_alone 6 3 "s6" None) c7 = Some c8 /\
    getSessionCount (state c8) = 5 /\
    outs c8 = outs c7 ++ [OpenResolved (mkOpenResult "s6" "chrome")].
Proof.
  do 4 eexists.
  split; [vm_compute; reflexivity|].
  split; [reflexivity|]. split; [reflexivity|].
  split; [repeat constructor; simpl; intuition discriminate|].
  split; [vm_compute; reflexivity|]. split; [reflexivity|].
  split; [vm_compute; reflexivity|]. split; [reflexivity|].
  split; [vm_compute; reflexivity|]. split; reflexivity.
Qed.

(** ** C2: the capacity check under concurrent opens *)

(** Four sessions are open; two more calls of [openSession] are made
    before either connect has settled. *)
Definition racing_opens : list (Env * Event) :=
  open_alone 0 0 "s1" None ++ open_alone 1 0 "s2" None ++
  open_alone 2 0 "s3" None ++ open_alone 3 0 "s4" None ++
  [ (mkEnv 1 "", CallOpen "key" None);
    (mkEnv 1 "", CallOpen "key" None);
    (mkEnv 2 "", Resume 4 (VBrowser false));
    (mkEnv 2 "", Resume 5 (VBrowser false));
    (mkEnv 3 "s5", Resume 4 (VPages [0]));
    (mkEnv 3 "s6", Resume 5 (VPages [0])) ].

(** C2.  The run [racing_opens] is an interleaving of [openSession]
    calls in which both late calls pass the capacity check at count 4,
    suspend at [await puppeteer.connect], and then both insert: the
    table ends with 6 sessions, above [MAX_SESSIONS], and neither call
    was rejected. *)
Theorem openSession_capacity_race :
  exists c,
    run racing_opens initial = Some c /\
    getSessionCount (state c) = 6 /\
    MAX_SESSIONS < getSessionCount (state c) /\
    outs c =
      map (fun id => OpenResolved (mkOpenResult id "chrome"))
          ["s1"; "s2"; "s3"; "s4"; "s5"; "s6"]%string.
Proof.
  eexists. split; [vm_compute; reflexivity|].
  split; [reflexivity|]. split; [vm_compute; lia | reflexivity].
Qed.

(** ** C7: a failed connect *)

(** C7.  A call of [openSession] that passes the capacity check changes
    no state before it suspends on the connect; and when the connect of
    a suspended call rejects with [e], the call rejects with that same
    [e] and the state (session table, count, timer reference, armed
    intervals) is left exactly as it was.  Run alone, the failed call
    therefore ends in the state it started from. *)
Theorem openSession_connect_failure_propagates :
  forall env env' apiKey options e c c2 k,
    getSessionCount (state c) < MAX_SESSIONS ->
    nth_error (pool c2) k = Some (Some (OpenConnecting apiKey options)) ->
    (exists c1,
       step env (CallOpen apiKey options) c = Some c1 /\
       state c1 = state c /\ outs c1 = outs c /\
       nth_error (pool c1) (List.length (pool c)) =
         Some (Some (OpenConnecting apiKey options))) /\
    (exists c3,
       step env' (Resume k (VError e)) c2 = Some c3 /\
       outs c3 = outs c2 ++ [OpenRejected e] /\
       state c3 = state c2 /\
       nth_error (pool c3) k = Some None) /\
    (exists c3,
       run [(env, CallOpen apiKey options);
            (env', Resume (List.length (pool c)) (VError e))] c = Some c3 /\
       outs c3 = outs c ++ [OpenRejected e] /\
       state c3 = state c /\
       sessions (state c3) = sessions (state c) /\
       getSessionCount (state c3) = getSessionCount (state c) /\
       cleanupTimer (state c3) = cleanupTimer (state c) /\
       intervals (state c3) = intervals (state c)).
Proof.
  intros env env' apiKey options e c c2 k Hroom Hk.
  assert (Henter : openSession_enter (state c) = None).
  { unfold openSession_enter.
    destruct (Nat.leb_spec MAX_SESSIONS (getSessionCount (state c))); [lia | reflexivity]. }
  assert (Hfail : forall c2 k,
    nth_error (pool c2) k = Some (Some (OpenConnecting apiKey options)) ->
    step env' (Resume k (VError e)) c2 = Some (emit (OpenRejected e) (retire k c2))).
  { intros c0 k0 Hk0. simpl. now rewrite Hk0. }
  split; [|split].
  - exists (spawn (OpenConnecting apiKey options) c). simpl. rewrite Henter.
    repeat split. apply nth_error_spawned.
  - eexists. split; [apply Hfail, Hk|].
    simpl. repeat split. eapply nth_error_update_eq; eassumption.
  - exists (emit (OpenRejected e)
              (retire (List.length (pool c)) (spawn (OpenConnecting apiKey options) c))).
    split; [|repeat split].
    assert (Hs1 : step env (CallOpen apiKey options) c =
                  Some (spawn (OpenConnecting apiKey options) c)).
    { simpl. now rewrite Henter. }
    unfold run. rewrite Hs1.
    rewrite Hfail; [reflexivity|]. simpl. apply nth_error_spawned.
Qed.

(** [one_session] with a second [openSession] suspended on its connect. *)
Definition one_session_connecting : Config :=
  spawn (OpenConnecting "key" None) one_session.

Lemma openSession_connect_failure_propagates_witness :
  (exists c3,
     step (mkEnv 6 "s2") (Resume 1 (VError (Error "ECONNREFUSED")))
       one_session_connecting = Some c3 /\
     outs c3 = outs one_session_connecting ++ [OpenRejected (Error "ECONNREFUSED")] /\
     state c3 = state one_session_connecting /\
     nth_error (pool c3) 1 = Some None) /\
  (exists c3,
    run [(mkEnv 5 "s2", CallOpen "key" None);
         (mkEnv 6 "s2", Resume 1 (VError (Error "ECONNREFUSED")))] one_session
      = Some c3 /\
    outs c3 = outs one_session ++ [OpenRejected (Error "ECONNREFUSED")] /\
    state c3 = state one_session).
Proof.
  destruct (openSession_connect_failure_propagates
              (mkEnv 5 "s2") (mkEnv 6 "s2") "key" None (Error "ECONNREFUSED")
              one_session one_session_connecting 1)
    as [_ [Hstep [c3 [Hrun [Houts [Hstate _]]]]]].
  - vm_compute. lia.
  - reflexivity.
  - split; [exact Hstep|].
    exists c3. exact (conj Hrun (conj Houts Hstate)).
Defined.

(** ** C3: lookup after close *)

(** Once an id is absent it stays absent, whatever runs, as long as
    [crypto.randomUUID()] does not return it again. *)
Lemma step_stays_absent id env ev c c' :
  JsMap.get (sessions (state c)) id = None ->
  uuid env <> id ->
  step env ev c = Some c' ->
  JsMap.get (sessions (state c')) id = None.
Proof.
  intros H Hfresh Hs.
  refine (inv_step (fun st => JsMap.get (sessions st) id = None)
            (fun u => u <> id) True _ _ _ _ _ _ _ env ev c c' H Hfresh (or_introl I) Hs);
    clear; intros.
  - rewrite sessions_openSession_finish. now rewrite JsMap.get_set_ne by congruence.
  - unfold getPage. destruct (JsMap.get (sessions st) id0) eqn:E; simpl; [|assumption].
    rewrite JsMap.get_set_ne; [assumption|]. intros ->. congruence.
  - rewrite sessions_closeSession. now apply JsMap.get_delete_None.
  - simpl. now apply JsMap.get_delete_None.
  - assumption.
  - assumption.
  - unfold closeAllSessions_finish. now destruct (cleanupTimer st).
Qed.

Lemma run_stays_absent id evs c c' :
  JsMap.get (sessions (state c)) id = None ->
  Forall (fun ee => uuid (fst ee) <> id) evs ->
  run evs c = Some c' ->
  JsMap.get (sessions (state c')) id = None.
Proof.
  intros H Hok Hr.
  apply (run_invariant (fun c => JsMap.get (sessions (state c)) id = None)
           (fun ee => uuid (fst ee) <> id)) with (evs := evs) (c := c); auto.
  intros env ev c0 c1 H0 Hu Hs. eapply step_stays_absent; eassumption.
Qed.

(** C3.  For an id with a live session, the synchronous part of
    [closeSession] first deletes the record and only then calls
    [browser.close()]: the teardown is invoked in a state where the id
    is already absent.  From then on [getPage] on that id throws the
    not-found error: at once, before the teardown settles, and after any
    further events, provided no later [openSession] is handed the same
    id by [crypto.randomUUID()]. *)
Theorem closeSession_then_getPage_not_found :
  forall st id session evs c c' now,
    wf_state st ->
    JsMap.get (sessions st) id = Some session ->
    state c = fst (closeSession st id) ->
    Forall (fun ee => uuid (fst ee) <> id) evs ->
    run evs c = Some c' ->
    closeSession st id =
      (browser_close (browser session)
         (with_sessions (JsMap.delete (sessions st) id) st),
       negb (closeThrows (browser session))) /\
    JsMap.get (sessions (with_sessions (JsMap.delete (sessions st) id) st)) id = None /\
    closeCalls (fst (closeSession st id)) = closeCalls st ++ [bid (browser session)] /\
    getPage (fst (closeSession st id)) id now =
      (fst (closeSession st id), inl (Error not_found_message)) /\
    getPage (state c') id now = (state c', inl (Error not_found_message)) /\
    includes "Browser session not found" not_found_message = true.
Proof.
  intros st id session evs c c' now Hwf Hget Hc Hfresh Hrun.
  assert (Hgone : JsMap.get (JsMap.delete (sessions st) id) id = None)
    by now apply JsMap.get_delete_eq.
  rewrite (closeSession_present st id session Hget). simpl.
  repeat split; try assumption.
  - now apply getPage_absent.
  - apply getPage_absent. eapply run_stays_absent; try eassumption.
    rewrite Hc, sessions_closeSession. exact Hgone.
Qed.

(** [one_session] right after [closeSession("s1")] was called. *)
Definition one_session_closing : Config :=
  match step (mkEnv 1 "") (CallClose "s1") one_session with
  | Some c => c
  | None => one_session
  end.

Lemma closeSession_then_getPage_not_found_witness :
  getPage (fst (closeSession (state one_session) "s1")) "s1" 2 =
    (fst (closeSession (state one_session) "s1"), inl (Error not_found_message)) /\
  getPage (state (run_or_initial
                    (open_alone 0 0 "s1" None ++
                     [(mkEnv 1 "", CallClose "s1"); (mkEnv 3 "", Resume 1 VDone)])))
          "s1" 4 =
    (state (run_or_initial
              (open_alone 0 0 "s1" None ++
               [(mkEnv 1 "", CallClose "s1"); (mkEnv 3 "", Resume 1 VDone)])),
     inl (Error not_found_message)).
Proof.
  destruct (closeSession_then_getPage_not_found
              (state one_session) "s1"
              (mkSession (mkBrowser 0 false) 0 0)
              [(mkEnv 3 "", Resume 1 VDone)]
              one_session_closing
              (run_or_initial
                 (open_alone 0 0 "s1" None ++
                  [(mkEnv 1 "", CallClose "s1"); (mkEnv 3 "", Resume 1 VDone)]))
              2)
    as [_ [_ [_ [Hnow _]]]].
  - vm_compute. repeat constructor. simpl. tauto.
  - reflexivity.
  - reflexivity.
  - repeat constructor. simpl. discriminate.
  - reflexivity.
  - split; [exact Hnow|].
    destruct (closeSession_then_getPage_not_found
              (state one_session) "s1"
              (mkSession (mkBrowser 0 false) 0 0)
              [(mkEnv 3 "", Resume 1 VDone)]
              one_session_closing
              (run_or_initial
                 (open_alone 0 0 "s1" None ++
                  [(mkEnv 1 "", CallClose "s1"); (mkEnv 3 "", Resume 1 VDone)]))
              4)
      as [_ [_ [_ [_ [Hlater _]]]]].
    + vm_compute. repeat constructor. simpl. tauto.
    + reflexivity.
    + reflexivity.
    + repeat constructor. simpl. discriminate.
    + reflexivity.
    + exact Hlater.
Defined.

(** ** C5: the session count *)

(** C5.  The segment of [openSession] that inserts the session raises
    [getSessionCount()] by exactly 1, from every state, the empty table
    of the first open included (the id drawn from [crypto.randomUUID()]
    being new); so does the event-loop turn that runs that segment.
    [closeSession] on a live id lowers the count by exactly 1.
    [closeSession] on an unknown id, in any state, returns at once
    without throwing and leaves the state, hence the count, unchanged;
    and so does a second [closeSession] on an id that was just closed. *)
Theorem session_count_open_close :
  (forall st options b p id now,
     JsMap.get (sessions st) id = None ->
     getSessionCount (fst (openSession_finish st options b p id now)) =
       getSessionCount st + 1) /\
  (forall env k options b p c,
     JsMap.get (sessions (state c)) (uuid env) = None ->
     getSessionCount (state (finish_open env k options b p c)) =
       getSessionCount (state c) + 1 /\
     outs (finish_open env k options b p c) =
       outs c ++ [OpenResolved (mkOpenResult (uuid env) (resolved_browserType options))]) /\
  (forall st live session,
     JsMap.get (sessions st) live = Some session ->
     getSessionCount (fst (closeSession st live)) + 1 = getSessionCount st) /\
  (forall st unknown env c,
     JsMap.get (sessions st) unknown = None ->
     state c = st ->
     closeSession st unknown = (st, false) /\
     getSessionCount (fst (closeSession st unknown)) = getSessionCount st /\
     step env (CallClose unknown) c = Some (emit CloseResolved c)) /\
  (forall st live session,
     wf_state st ->
     JsMap.get (sessions st) live = Some session ->
     closeSession (fst (closeSession st live)) live =
       (fst (closeSession st live), false)).
Proof.
  assert (Hopen : forall st options b p id now,
            JsMap.get (sessions st) id = None ->
            getSessionCount (fst (openSession_finish st options b p id now)) =
              getSessionCount st + 1).
  { intros st options b p id now Hid. unfold getSessionCount.
    rewrite sessions_openSession_finish.
    rewrite (@JsMap.size_set_fresh _ _ _ (mkSession b p now) Hid). lia. }
  split; [exact Hopen|]. split; [|split; [|split]].
  - intros env k options b p c Hid.
    specialize (Hopen (state c) options b p (uuid env) (clock env) Hid).
    unfold finish_open.
    destruct (openSession_finish (state c) options b p (uuid env) (clock env))
      as [st' r] eqn:E.
    simpl in *. split; [exact Hopen|].
    unfold openSession_finish in E. injection E as _ <-. reflexivity.
  - intros st live session Hlive. unfold getSessionCount.
    rewrite sessions_closeSession.
    pose proof (@JsMap.size_delete_present _ _ _ _ Hlive) as Hd. lia.
  - intros st unknown env c Hun Hc.
    rewrite (closeSession_absent st unknown Hun). simpl.
    split; [reflexivity|]. split; [reflexivity|].
    rewrite Hc, (closeSession_absent st unknown Hun).
    unfold emit, with_state. simpl. rewrite <- Hc. now destruct c.
  - intros st live session Hwf Hlive.
    apply closeSession_absent. rewrite sessions_closeSession.
    now apply JsMap.get_delete_eq.
Qed.

Lemma session_count_open_close_witness :
  getSessionCount
    (fst (openSession_finish initial_state None (mkBrowser 0 false) 0 "s1" 0)) =
    getSessionCount initial_state + 1 /\
  getSessionCount
    (fst (openSession_finish (state one_session) None (mkBrowser 1 false) 0 "s2" 5)) =
    getSessionCount (state one_session) + 1 /\
  getSessionCount
    (state (finish_open (mkEnv 0 "s1") 0 None (mkBrowser 0 false) 0 initial)) =
    getSessionCount (state initial) + 1 /\
  getSessionCount (fst (closeSession (state one_session) "s1")) + 1 =
    getSessionCount (state one_session) /\
  closeSession initial_state "nope" = (initial_state, false) /\
  step (mkEnv 6 "") (CallClose "nope") one_session =
    Some (emit CloseResolved one_session) /\
  closeSession (fst (closeSession (state one_session) "s1")) "s1" =
    (fst (closeSession (state one_session) "s1"), false).
Proof.
  destruct session_count_open_close as [Hopen [Hturn [Hclose [Hunknown Hagain]]]].
  split; [apply Hopen; reflexivity|].
  split; [apply Hopen; reflexivity|].
  split; [apply (Hturn (mkEnv 0 "s1") 0 None (mkBrowser 0 false) 0 initial); reflexivity|].
  split; [apply (Hclose (state one_session) "s1"%string
                   (mkSession (mkBrowser 0 false) 0 0));
          reflexivity|].
  split; [apply (Hunknown initial_state "nope"%string (mkEnv 0 "") initial); reflexivity|].
  split; [apply (Hunknown (state one_session) "nope"%string (mkEnv 6 "") one_session);
          reflexivity|].
  apply (Hagain (state one_session) "s1"%string (mkSession (mkBrowser 0 false) 0 0)).
  - vm_compute. repeat constructor. simpl. tauto.
  - reflexivity.
Defined.

(** ** C4: the idle reaper *)

(** The loop's test, [now - session.lastAccess > SESSION_TIMEOUT_MS]. *)
Definition idle (now : Z) (s : Session) : bool :=
  (now - lastAccess s >? SESSION_TIMEOUT_MS)%Z.

(** The table with every idle session's record emptied. *)
Fixpoint reaped (now : Z) (m : JsMap.t Session) : JsMap.t Session :=
  match m with
  | [] => []
  | None :: m' => None :: reaped now m'
  | Some (id, s) :: m' =>
      (if idle now s then None else Some (id, s)) :: reaped now m'
  end.

(** The browsers of the idle sessions, in table order. *)
Fixpoint idle_browsers (now : Z) (m : JsMap.t Session) : list nat :=
  match m with
  | [] => []
  | None :: m' => idle_browsers now m'
  | Some (_, s) :: m' =>
      if idle now s then bid (browser s) :: idle_browsers now m'
      else idle_browsers now m'
  end.

(** The interval callback run alone: every [closeSession] it awaits
    settles before anything else happens.  Each unit of fuel pays for one
    resumption. *)
Fixpoint tick_run (fuel : nat) (st : State) (now : Z) (pos : nat) : option State :=
  match tick_from st now pos with
  | (st', None) => Some st'
  | (st', Some pos') =>
      match fuel with
      | 0 => None
      | S fuel' => tick_run fuel' st' now pos'
      end
  end.

Lemma tick_run_unfold fuel st now pos :
  tick_run fuel st now pos =
  match tick_from st now pos with
  | (st', None) => Some st'
  | (st', Some pos') =>
      match fuel with
      | 0 => None
      | S fuel' => tick_run fuel' st' now pos'
      end
  end.
Proof. destruct fuel; reflexivity. Qed.

Lemma skipn_length_app {A : Type} (pre suf : list A) :
  skipn (List.length pre) (pre ++ suf) = suf.
Proof. induction pre; simpl; auto. Qed.

Lemma keys_app {V : Type} (a b : JsMap.t V) :
  JsMap.keys (a ++ b) = JsMap.keys a ++ JsMap.keys b.
Proof.
  induction a as [|[[k v]|] a IH]; simpl; congruence.
Qed.

Lemma size_app {V : Type} (a b : JsMap.t V) :
  JsMap.size (a ++ b) = JsMap.size a + JsMap.size b.
Proof.
  induction a as [|[[k v]|] a IH]; simpl; congruence.
Qed.

(** In a well-formed table, the record of a key is the one [get] finds
    and the one [delete] empties. *)
Lemma wf_middle {V : Type} (pre suf : JsMap.t V) k v :
  JsMap.wf (pre ++ Some (k, v) :: suf) ->
  JsMap.get (pre ++ Some (k, v) :: suf) k = Some v /\
  JsMap.delete (pre ++ Some (k, v) :: suf) k = pre ++ None :: suf.
Proof.
  unfold JsMap.wf.
  induction pre as [|[[k' v']|] pre IH]; simpl; intros Hwf.
  - now rewrite String.eqb_refl.
  - inversion Hwf as [|? ? Hnin Hnd]; subst.
    destruct (String.eqb_spec k' k) as [->|Hne].
    + exfalso. apply Hnin. rewrite keys_app. apply in_or_app. right. now left.
    + destruct (IH Hnd) as [-> ->]. now split.
  - destruct (IH Hwf) as [-> ->]. now split.
Qed.

Lemma In_get {V : Type} (m : JsMap.t V) k v :
  JsMap.wf m -> In (Some (k, v)) m -> JsMap.get m k = Some v.
Proof.
  intros Hwf Hin. apply in_split in Hin as [pre [suf ->]].
  now apply wf_middle.
Qed.

Lemma keys_reaped_incl now m k :
  In k (JsMap.keys (reaped now m)) -> In k (JsMap.keys m).
Proof.
  induction m as [|[[k' s']|] m IH]; simpl; auto.
  destruct (idle now s'); simpl; tauto.
Qed.

Lemma get_reaped now m id s :
  JsMap.wf m -> JsMap.get m id = Some s ->
  JsMap.get (reaped now m) id = if idle now s then None else Some s.
Proof.
  unfold JsMap.wf.
  induction m as [|[[k' s']|] m IH]; simpl; intros Hwf Hget.
  - discriminate.
  - inversion Hwf as [|? ? Hnin Hnd]; subst.
    destruct (String.eqb_spec k' id) as [->|Hne].
    + injection Hget as ->. destruct (idle now s); simpl.
      * apply JsMap.get_None_keys. intros Hin. apply Hnin.
        eapply keys_reaped_incl; eassumption.
      * now rewrite String.eqb_refl.
    + destruct (idle now s'); simpl.
      * now apply IH.
      * destruct (String.eqb_spec k' id); [contradiction | now apply IH].
  - now apply IH.
Qed.

Lemma get_reaped_None now m id :
  JsMap.get m id = None -> JsMap.get (reaped now m) id = None.
Proof.
  intros H. apply JsMap.get_None_keys. apply JsMap.get_None_keys in H.
  intros Hin. apply H. eapply keys_reaped_incl; eassumption.
Qed.

(** What [next_idle] returns is an idle record of the suffix it scans. *)
Lemma next_idle_found now : forall m pos pos' id,
  next_idle now m pos = Some (pos', id) ->
  exists s, In (Some (id, s)) m /\ idle now s = true.
Proof.
  induction m as [|[[k s]|] m IH]; simpl; intros pos pos' id H.
  - discriminate.
  - fold (idle now s) in H. destruct (idle now s) eqn:Ei.
    + injection H as _ <-. exists s. split; [now left | assumption].
    + destruct (IH _ _ _ H) as [s0 [Hin Hi]]. exists s0. split; [now right | assumption].
  - destruct (IH _ _ _ H) as [s0 [Hin Hi]]. exists s0. split; [now right | assumption].
Qed.

Lemma In_skipn {A : Type} (x : A) n l : In x (skipn n l) -> In x l.
Proof.
  revert l. induction n as [|n IH]; intros [|a l]; simpl; auto.
Qed.

(** A single segment of a scan removes at most an idle session. *)
Lemma tick_from_spares st now pos id session :
  wf_state st ->
  JsMap.get (sessions st) id = Some session ->
  idle now session = false ->
  JsMap.get (sessions (fst (tick_from st now pos))) id = Some session.
Proof.
  intros Hwf Hget Hfresh. unfold tick_from.
  destruct (next_idle now (skipn pos (sessions st)) pos) as [[pos' id0]|] eqn:En; simpl.
  - apply next_idle_found in En as [s0 [Hin Hidle]].
    apply In_skipn in Hin. apply (In_get _ _ _ Hwf) in Hin.
    rewrite sessions_closeSession.
    rewrite JsMap.get_delete_ne; [assumption|].
    intros ->. congruence.
  - destruct (cleanupTimer st); [|assumption].
    destruct (getSessionCount st =? 0); assumption.
Qed.

Lemma tick_run_spec now : forall suf pre st fuel,
  sessions st = pre ++ suf ->
  wf_state st ->
  List.length suf <= fuel ->
  exists st',
    tick_run fuel st now (List.length pre) = Some st' /\
    sessions st' = pre ++ reaped now suf /\
    closeCalls st' = closeCalls st ++ idle_browsers now suf /\
    cleanupTimer st' =
      (if JsMap.size (pre ++ reaped now suf) =? 0 then None else cleanupTimer st).
Proof.
  induction suf as [|e suf IH]; intros pre st fuel Hs Hwf Hfuel.
  - rewrite tick_run_unfold. unfold tick_from.
    rewrite Hs, skipn_length_app. simpl.
    eexists. split; [reflexivity|].
    unfold getSessionCount. rewrite Hs. simpl.
    destruct (cleanupTimer st) as [t|] eqn:Et.
    + destruct (JsMap.size (pre ++ []) =? 0) eqn:Ez; simpl;
        rewrite ?Et, ?app_nil_r in *; repeat split; auto using app_nil_r.
    + rewrite Et, app_nil_r in *. repeat split; auto using app_nil_r.
      now destruct (JsMap.size pre =? 0).
  - assert (Hskip : forall e',
      e = e' ->
      next_idle now (e' :: suf) (List.length pre) = next_idle now suf (S (List.length pre)) ->
      reaped now (e' :: suf) = e' :: reaped now suf ->
      idle_browsers now (e' :: suf) = idle_browsers now suf ->
      exists st',
        tick_run fuel st now (List.length pre) = Some st' /\
        sessions st' = pre ++ reaped now (e :: suf) /\
        closeCalls st' = closeCalls st ++ idle_browsers now (e :: suf) /\
        cleanupTimer st' =
          (if JsMap.size (pre ++ reaped now (e :: suf)) =? 0 then None else cleanupTimer st)).
    { intros e' -> Hn Hr Hb.
      assert (Hs' : sessions st = (pre ++ [e']) ++ suf) by now rewrite <- app_assoc.
      destruct (IH (pre ++ [e']) st fuel Hs' Hwf) as [st' [Hrun [Hses [Hcl Htm]]]].
      { simpl in Hfuel. lia. }
      exists st'. rewrite Hr, Hb. rewrite <- app_assoc in Hses, Htm. simpl in Hses, Htm.
      repeat split; auto.
      rewrite <- Hrun. rewrite !tick_run_unfold. unfold tick_from.
      rewrite Hs' at 2. rewrite skipn_length_app.
      rewrite Hs, skipn_length_app, Hn.
      rewrite List.length_app. simpl. now rewrite Nat.add_1_r. }
    destruct e as [[id s]|].
    + destruct (idle now s) eqn:Ei.
      * (* the record is idle: closeSession, suspend, resume after it *)
        destruct fuel as [|fuel]; [simpl in Hfuel; lia|].
        assert (Hwf' : JsMap.wf (pre ++ Some (id, s) :: suf))
          by (unfold wf_state in Hwf; now rewrite Hs in Hwf).
        assert (Hget : JsMap.get (sessions st) id = Some s)
          by (rewrite Hs; now apply wf_middle).
        assert (Hdel : JsMap.delete (sessions st) id = pre ++ None :: suf)
          by (rewrite Hs; now apply wf_middle).
        set (st1 := fst (closeSession st id)).
        assert (Hs1 : sessions st1 = (pre ++ [None]) ++ suf).
        { unfold st1. rewrite sessions_closeSession, Hdel. now rewrite <- app_assoc. }
        assert (Hwf1 : wf_state st1).
        { unfold wf_state, st1. rewrite sessions_closeSession. now apply JsMap.wf_delete. }
        destruct (IH (pre ++ [None]) st1 fuel Hs1 Hwf1) as [st' [Hrun [Hses [Hcl Htm]]]].
        { simpl in Hfuel. lia. }
        exists st'.
        rewrite <- app_assoc in Hses, Htm. simpl in Hses, Htm.
        cbn [reaped idle_browsers]. rewrite Ei.
        split; [|split; [assumption|split]].
        -- rewrite tick_run_unfold. unfold tick_from.
           rewrite Hs, skipn_length_app. cbn [next_idle].
           fold (idle now s). rewrite Ei. cbv beta iota. fold st1.
           rewrite <- Hrun, List.length_app. simpl. now rewrite Nat.add_1_r.
        -- rewrite Hcl. unfold st1. rewrite (closeSession_present st id s Hget).
           simpl. now rewrite <- app_assoc.
        -- rewrite Htm. unfold st1.
           now rewrite (proj1 (cleanupTimer_closeSession st id)).
      * apply (Hskip (Some (id, s))); auto; simpl; fold (idle now s); now rewrite Ei.
    + apply (Hskip None); auto.
Qed.

(** The event loop runs the same scan: a suspended callback that is
    resumed until it ends reaches the state [tick_run] computes. *)
Lemma resume_tick_alone env k : forall fuel c now pos st',
  nth_error (pool c) k = Some (Some (TickClosing now pos)) ->
  tick_run fuel (state c) now pos = Some st' ->
  exists n c',
    n <= fuel /\
    run (repeat (env, Resume k VDone) (S n)) c = Some c' /\
    state c' = st' /\ outs c' = outs c /\
    nth_error (pool c') k = Some None.
Proof.
  induction fuel as [|fuel IH]; intros c now pos st' Hk Hrun;
    rewrite tick_run_unfold in Hrun;
    destruct (tick_from (state c) now pos) as [st1 [pos1|]] eqn:Et.
  - discriminate.
  - injection Hrun as <-. exists 0. eexists. split; [lia|].
    cbn [repeat run step]. rewrite Hk. cbn [resume]. rewrite Et.
    split; [reflexivity|]. simpl. repeat split.
    eapply nth_error_update_eq; eassumption.
  - destruct (IH (suspend k (TickClosing now pos1) (with_state st1 c)) now pos1 st')
      as [n [c' [Hn [Hr [Hst [Ho Hp]]]]]].
    + simpl. eapply nth_error_update_eq; eassumption.
    + exact Hrun.
    + exists (S n), c'. split; [lia|].
      change (repeat (env, Resume k VDone) (S (S n)))
        with ((env, Resume k VDone) :: repeat (env, Resume k VDone) (S n)).
      cbn [run step]. rewrite Hk. cbn [resume]. rewrite Et.
      split; [exact Hr|]. repeat split; assumption.
  - injection Hrun as <-. exists 0. eexists. split; [lia|].
    cbn [repeat run step]. rewrite Hk. cbn [resume]. rewrite Et.
    split; [reflexivity|]. simpl. repeat split.
    eapply nth_error_update_eq; eassumption.
Qed.

Lemma fire_tick_alone env env' t fuel c st' :
  existsb (Nat.eqb t) (intervals (state c)) = true ->
  tick_run fuel (state c) (clock env) 0 = Some st' ->
  exists n c',
    n <= fuel /\
    run ((env, Fire t) :: repeat (env', Resume (List.length (pool c)) VDone) n) c
      = Some c' /\
    state c' = st' /\ outs c' = outs c.
Proof.
  intros Harmed Hrun. rewrite tick_run_unfold in Hrun.
  destruct (tick_from (state c) (clock env) 0) as [st1 [pos1|]] eqn:Et.
  - destruct fuel as [|fuel]; [discriminate|].
    destruct (resume_tick_alone env' (List.length (pool c)) fuel
                (spawn (TickClosing (clock env) pos1) (with_state st1 c))
                (clock env) pos1 st')
      as [n [c' [Hn [Hr [Hst [Ho _]]]]]].
    + simpl. apply nth_error_spawned.
    + exact Hrun.
    + exists (S n), c'. split; [lia|].
      cbn [run step]. rewrite Harmed, Et. auto.
  - injection Hrun as <-. exists 0. eexists. split; [lia|].
    cbn [repeat run step]. rewrite Harmed, Et. auto.
Qed.

(** C4.  Every successful [getPage] sets the session's [lastAccess] to
    the current time.  A reaper scan at time [now] that runs alone
    closes exactly the sessions with
    [now - lastAccess > SESSION_TIMEOUT_MS] (5 minutes, strictly): their
    records are removed and [close()] is called on their browsers, and
    every other session is kept as it was.  However a scan is
    interleaved with other calls, none of its segments removes a session
    that is not idle at [now]; in particular a session refreshed at
    [access] is kept by every scan with
    [now - access <= SESSION_TIMEOUT_MS]. *)
Theorem reaper_closes_exactly_idle_sessions :
  forall st now id session access,
    wf_state st ->
    JsMap.get (sessions st) id = Some session ->
    getPage st id access =
      (with_sessions
         (JsMap.set (sessions st) id
            (mkSession (browser session) (page session) access)) st,
       inr (page session)) /\
    JsMap.get (sessions (fst (getPage st id access))) id =
      Some (mkSession (browser session) (page session) access) /\
    (exists st',
       tick_run (List.length (sessions st)) st now 0 = Some st' /\
       sessions st' = reaped now (sessions st) /\
       closeCalls st' = closeCalls st ++ idle_browsers now (sessions st) /\
       (forall id' s',
          JsMap.get (sessions st) id' = Some s' ->
          JsMap.get (sessions st') id' =
            if (now - lastAccess s' >? SESSION_TIMEOUT_MS)%Z then None else Some s') /\
       (forall id',
          JsMap.get (sessions st) id' = None ->
          JsMap.get (sessions st') id' = None)) /\
    (forall pos,
       (now - lastAccess session > SESSION_TIMEOUT_MS)%Z \/
       JsMap.get (sessions (fst (tick_from st now pos))) id = Some session) /\
    (forall pos,
       (now - access > SESSION_TIMEOUT_MS)%Z \/
       JsMap.get (sessions (fst (tick_from (fst (getPage st id access)) now pos))) id =
         Some (mkSession (browser session) (page session) access)).
Proof.
  intros st now id session access Hwf Hget.
  assert (Hspare : forall st0 s0 pos,
    wf_state st0 -> JsMap.get (sessions st0) id = Some s0 ->
    (now - lastAccess s0 > SESSION_TIMEOUT_MS)%Z \/
    JsMap.get (sessions (fst (tick_from st0 now pos))) id = Some s0).
  { intros st0 s0 pos Hwf0 Hget0.
    destruct (idle now s0) eqn:Ei.
    - left. unfold idle in Ei. now apply Z.gtb_gt.
    - right. now apply tick_from_spares. }
  rewrite (getPage_present st id access session Hget). simpl.
  split; [reflexivity|]. split; [apply JsMap.get_set_eq|].
  split; [|split].
  - destruct (tick_run_spec now (sessions st) [] st (List.length (sessions st)))
      as [st' [Hrun [Hses [Hcl _]]]]; auto.
    exists st'. simpl in Hrun, Hses. rewrite Hses.
    repeat split; auto.
    + intros id' s' H'. now apply get_reaped.
    + intros id' H'. now apply get_reaped_None.
  - intros pos. now apply Hspare.
  - intros pos.
    apply (Hspare (with_sessions
                     (JsMap.set (sessions st) id
                        (mkSession (browser session) (page session) access)) st)
                  (mkSession (browser session) (page session) access) pos).
    + unfold wf_state. simpl. now apply JsMap.wf_set.
    + simpl. apply JsMap.get_set_eq.
Qed.

Lemma reaper_closes_exactly_idle_sessions_witness :
  JsMap.get (sessions (fst (getPage (state one_session) "s1" 299000))) "s1" =
    Some (mkSession (mkBrowser 0 false) 0 299000) /\
  (exists st',
     tick_run 1 (state one_session) 360000 0 = Some st' /\
     sessions st' = reaped 360000 (sessions (state one_session)) /\
     closeCalls st' = [0]) /\
  JsMap.get
    (sessions (fst (tick_from (fst (getPage (state one_session) "s1" 299000)) 360000 0)))
    "s1" = Some (mkSession (mkBrowser 0 false) 0 299000).
Proof.
  destruct (reaper_closes_exactly_idle_sessions
              (state one_session) 360000 "s1" (mkSession (mkBrowser 0 false) 0 0) 299000)
    as [_ [Hset [[st' [Hrun [Hses [Hcl _]]]] [_ Hkeep]]]].
  - vm_compute. repeat constructor. simpl. tauto.
  - reflexivity.
  - split; [exact Hset|]. split.
    + exists st'. exact (conj Hrun (conj Hses Hcl)).
    + destruct (Hkeep 0) as [Hgt|Hk]; [|exact Hk].
      exfalso. vm_compute in Hgt. discriminate.
Defined.

(** The timeline of the specification, through the event loop.  The
    session is opened at time 0; the timer fires every minute. *)
Example idle_session_reaped :
  exists c,
    run (open_alone 0 0 "s1" None ++
         [(mkEnv 300000 "", Fire 0);
          (mkEnv 360000 "", Fire 0); (mkEnv 360010 "", Resume 1 VDone)]) initial
      = Some c /\
    getSessionCount (state c) = 0 /\ closeCalls (state c) = [0] /\
    cleanupTimer (state c) = None.
Proof. eexists. split; [vm_compute; reflexivity|]. repeat split. Qed.

Example session_at_threshold_kept :
  exists c,
    run (open_alone 0 0 "s1" None ++ [(mkEnv 300000 "", Fire 0)]) initial = Some c /\
    getSessionCount (state c) = 1 /\ closeCalls (state c) = [].
Proof. eexists. split; [vm_compute; reflexivity|]. repeat split. Qed.

Example refreshed_session_kept :
  exists c,
    run (open_alone 0 0 "s1" None ++
         [(mkEnv 299000 "", CallGetPage "s1");
          (mkEnv 300000 "", Fire 0);
          (mkEnv 360000 "", Fire 0);
          (mkEnv 599000 "", Fire 0)]) initial
      = Some c /\
    JsMap.get (sessions (state c)) "s1" = Some (mkSession (mkBrowser 0 false) 0 299000) /\
    closeCalls (state c) = [].
Proof. eexists. split; [vm_compute; reflexivity|]. repeat split. Qed.

(** ** C6: closeAllSessions *)

Lemma emptied_prefix {V : Type} (pre m : JsMap.t V) k :
  JsMap.size pre = 0 ->
  JsMap.get (pre ++ m) k = JsMap.get m k /\
  JsMap.delete (pre ++ m) k = pre ++ JsMap.delete m k.
Proof.
  induction pre as [|[[k' v']|] pre IH]; simpl; intros Hz.
  - now split.
  - discriminate.
  - destruct (IH Hz) as [-> ->]. now split.
Qed.

Lemma size_emptied {V : Type} (m : JsMap.t V) :
  JsMap.size (map (fun _ => None) m : JsMap.t V) = 0.
Proof. induction m; simpl; auto. Qed.

(** Calling [closeSession] on every key in turn empties every record and
    calls [close()] once on every session's browser, in table order. *)
Lemma closeEach_keys : forall suf pre st,
  sessions st = pre ++ suf ->
  JsMap.size pre = 0 ->
  sessions (fst (closeEach st (JsMap.keys suf))) = pre ++ map (fun _ => None) suf /\
  closeCalls (fst (closeEach st (JsMap.keys suf))) =
    closeCalls st ++ map (fun s => bid (browser s)) (JsMap.values suf) /\
  cleanupTimer (fst (closeEach st (JsMap.keys suf))) = cleanupTimer st /\
  intervals (fst (closeEach st (JsMap.keys suf))) = intervals st /\
  snd (closeEach st (JsMap.keys suf)) <= JsMap.size suf.
Proof.
  induction suf as [|[[id s]|] suf IH]; intros pre st Hs Hz.
  - simpl. rewrite app_nil_r in *. repeat split; auto using app_nil_r.
  - assert (Hget : JsMap.get (sessions st) id = Some s).
    { rewrite Hs. etransitivity; [apply emptied_prefix; exact Hz|].
      simpl. now rewrite String.eqb_refl. }
    assert (Hdel : JsMap.delete (sessions st) id = pre ++ None :: suf).
    { rewrite Hs. etransitivity; [apply emptied_prefix; exact Hz|].
      simpl. now rewrite String.eqb_refl. }
    cbn [JsMap.keys closeEach].
    rewrite (closeSession_present st id s Hget).
    set (st1 := browser_close (browser s)
                  (with_sessions (JsMap.delete (sessions st) id) st)).
    assert (Hs1 : sessions st1 = (pre ++ [None]) ++ suf).
    { unfold st1. simpl. rewrite Hdel. now rewrite <- app_assoc. }
    assert (Hz1 : JsMap.size (pre ++ [None]) = 0).
    { rewrite size_app. simpl. lia. }
    destruct (IH (pre ++ [None]) st1 Hs1 Hz1) as [H1 [H2 [H3 [H4 H5]]]].
    destruct (closeEach st1 (JsMap.keys suf)) as [st2 n]. simpl in *.
    rewrite H1, H2, H3, H4, <- !app_assoc. simpl. repeat split; auto.
    destruct (closeThrows (browser s)); simpl; lia.
  - assert (Hs1 : sessions st = (pre ++ [None]) ++ suf) by now rewrite <- app_assoc.
    assert (Hz1 : JsMap.size (pre ++ [None]) = 0).
    { rewrite size_app. simpl. lia. }
    destruct (IH (pre ++ [None]) st Hs1 Hz1) as [H1 [H2 [H3 [H4 H5]]]].
    cbn [JsMap.keys JsMap.values JsMap.size map].
    rewrite H1, <- app_assoc. repeat split; auto.
Qed.

(** The teardowns awaited by [Promise.allSettled] settle one by one,
    each either way; nothing else changes meanwhile. *)
Lemma settle_pending k : forall (outcomes : list (Env * Value)) c,
  nth_error (pool c) k = Some (Some (CloseAllSettling (List.length outcomes))) ->
  Forall (fun ev => snd ev = VDone \/ exists e, snd ev = VError e) outcomes ->
  exists c',
    run (map (fun ev => (fst ev, Resume k (snd ev))) outcomes) c = Some c' /\
    state c' = state c /\ outs c' = outs c /\
    nth_error (pool c') k = Some (Some (CloseAllSettling 0)).
Proof.
  induction outcomes as [|[env v] outcomes IH]; intros c Hk Hok.
  - exists c. simpl. auto.
  - inversion Hok as [|? ? Hv Hok']; subst. simpl in Hv, Hk.
    assert (Hstep : step env (Resume k v) c =
                    Some (suspend k (CloseAllSettling (List.length outcomes)) c)).
    { simpl. rewrite Hk. destruct Hv as [->|[e ->]]; reflexivity. }
    destruct (IH (suspend k (CloseAllSettling (List.length outcomes)) c))
      as [c' [Hr [Hst [Ho Hp]]]]; auto.
    { simpl. eapply nth_error_update_eq; eassumption. }
    exists c'. cbn [map run fst snd]. rewrite Hstep. auto.
Qed.

(** C6.  [closeAllSessions] calls [closeSession] on every session in the
    table at the time of the call: at its first [await] the table is
    already empty (count 0) and [close()] has been invoked once on every
    browser that was tracked, whether or not an individual [close()]
    raised.  Whatever way the awaited teardowns settle (each resolves or
    rejects), the call then resolves without error, and it ends by
    clearing the timer: [cleanupTimer] is null and the interval it named
    is no longer armed.  With no other call interleaved the count is
    still 0 at that point. *)
Theorem closeAllSessions_closes_everything :
  forall env (outcomes : list (Env * Value)) c,
    Forall (fun ev => snd ev = VDone \/ exists e, snd ev = VError e) outcomes ->
    List.length outcomes = snd (closeAllSessions_enter (state c)) ->
    exists c1 c2,
      step env CallCloseAll c = Some c1 /\
      getSessionCount (state c1) = 0 /\
      closeCalls (state c1) =
        closeCalls (state c) ++
        map (fun s => bid (browser s)) (JsMap.values (sessions (state c))) /\
      run (map (fun ev => (fst ev, Resume (List.length (pool c)) (snd ev))) outcomes ++
           [(env, Resume (List.length (pool c)) VDone)]) c1 = Some c2 /\
      outs c2 = outs c ++ [CloseAllResolved] /\
      getSessionCount (state c2) = 0 /\
      closeCalls (state c2) = closeCalls (state c1) /\
      cleanupTimer (state c2) = None /\
      (forall t, cleanupTimer (state c) = Some t -> ~ In t (intervals (state c2))).
Proof.
  intros env outcomes c Hok Hlen.
  unfold closeAllSessions_enter in Hlen.
  destruct (closeEach_keys (sessions (state c)) [] (state c) eq_refl eq_refl)
    as [Hses [Hcl [Htm [Hiv _]]]].
  destruct (closeEach (state c) (JsMap.keys (sessions (state c)))) as [st1 n] eqn:Ec.
  simpl in Hses, Hcl, Htm, Hiv, Hlen.
  set (c1 := spawn (CloseAllSettling n) (with_state st1 c)).
  assert (Hstep : step env CallCloseAll c = Some c1).
  { simpl. unfold closeAllSessions_enter. now rewrite Ec. }
  assert (Hzero : getSessionCount st1 = 0).
  { unfold getSessionCount. rewrite Hses. apply size_emptied. }
  destruct (settle_pending (List.length (pool c)) outcomes c1) as [c' [Hr [Hst [Ho Hp]]]].
  { simpl. rewrite Hlen. apply nth_error_spawned. }
  { exact Hok. }
  exists c1. eexists.
  split; [exact Hstep|]. split; [exact Hzero|]. split; [exact Hcl|].
  split.
  { rewrite run_app, Hr. cbn [run step]. rewrite Hp. cbn [resume]. reflexivity. }
  simpl. rewrite Ho, Hst. simpl.
  unfold closeAllSessions_finish. rewrite Htm.
  destruct (cleanupTimer (state c)) as [t|] eqn:Et; simpl.
  - repeat split; auto.
    intros t0 E. injection E as <-. apply remove_In.
  - repeat split; auto. intros t0 E. discriminate.
Qed.

(** Three sessions; [close()] of the second raises at the call. *)
Definition three_sessions : Config :=
  run_or_initial
    (open_alone 0 0 "s1" None ++
     [ (mkEnv 1 "s2", CallOpen "key" None);
       (mkEnv 1 "s2", Resume 1 (VBrowser true));
       (mkEnv 1 "s2", Resume 1 (VPages [0])) ] ++
     open_alone 2 2 "s3" None).

Lemma closeAllSessions_closes_everything_witness :
  exists c1 c2,
    step (mkEnv 9 "") CallCloseAll three_sessions = Some c1 /\
    getSessionCount (state c1) = 0 /\
    closeCalls (state c1) = [0; 1; 2] /\
    run [(mkEnv 10 "", Resume 3 (VError (Error "Target closed")));
         (mkEnv 11 "", Resume 3 VDone);
         (mkEnv 9 "", Resume 3 VDone)] c1 = Some c2 /\
    outs c2 = outs three_sessions ++ [CloseAllResolved] /\
    getSessionCount (state c2) = 0 /\
    cleanupTimer (state c2) = None.
Proof.
  destruct (closeAllSessions_closes_everything (mkEnv 9 "")
              [(mkEnv 10 "", VError (Error "Target closed")); (mkEnv 11 "", VDone)]
              three_sessions)
    as [c1 [c2 [H1 [H2 [H3 [H4 [H5 [H6 [_ [H7 _]]]]]]]]]].
  - constructor; [right; exists (Error "Target closed"); reflexivity|].
    constructor; [left; reflexivity | constructor].
  - reflexivity.
  - exists c1, c2. repeat split; assumption.
Defined.

(** ** C8: the lifetime of the reaper *)

(** While sessions exist the timer reference is set. *)
Definition armed_if_nonempty (st : State) : Prop :=
  0 < getSessionCount st -> cleanupTimer st <> None.

Lemma startCleanup_armed st : cleanupTimer (startCleanup st) <> None.
Proof.
  unfold startCleanup. destruct (cleanupTimer st) eqn:E; simpl; congruence.
Qed.

Lemma step_armed env ev c c' :
  armed_if_nonempty (state c) ->
  no_closeAll (pool c) -> ev <> CallCloseAll ->
  step env ev c = Some c' ->
  armed_if_nonempty (state c').
Proof.
  intros H Hn Hev Hs.
  refine (inv_step armed_if_nonempty (fun _ => True) False _ _ _ _ _ _ _
            env ev c c' H I (or_intror (conj Hn Hev)) Hs);
    unfold armed_if_nonempty, getSessionCount; clear; intros.
  - unfold openSession_finish. simpl. apply startCleanup_armed.
  - unfold getPage in *. destruct (JsMap.get (sessions st) id) eqn:E; simpl in *; auto.
    apply H. erewrite <- JsMap.size_set_present; eassumption.
  - rewrite (proj1 (cleanupTimer_closeSession st id)).
    rewrite sessions_closeSession in H0. apply H.
    pose proof (JsMap.size_delete_le (sessions st) id). lia.
  - simpl in *. apply H.
    pose proof (JsMap.size_delete_le (sessions st) id). lia.
  - simpl in *. auto.
  - simpl in *. unfold getSessionCount in *. lia.
  - contradiction.
Qed.

Lemma run_armed evs : forall c c',
  armed_if_nonempty (state c) -> no_closeAll (pool c) ->
  Forall (fun ee => snd ee <> CallCloseAll) evs ->
  run evs c = Some c' ->
  armed_if_nonempty (state c').
Proof.
  intros c c' H Hn Hok Hr.
  apply (run_invariant
           (fun c => armed_if_nonempty (state c) /\ no_closeAll (pool c))
           (fun ee => snd ee <> CallCloseAll)) with (evs := evs) (c := c) (c' := c');
    auto.
  intros env ev c0 c1 [H0 Hn0] Hev Hs. split.
  - eapply step_armed; eassumption.
  - eapply step_no_closeAll; eassumption.
Qed.

Lemma next_idle_none_if_empty now : forall (m : JsMap.t Session) pos,
  JsMap.size m = 0 -> next_idle now m pos = None.
Proof.
  induction m as [|[[k s]|] m IH]; simpl; intros pos Hz; auto. discriminate.
Qed.

Lemma size_skipn {V : Type} n : forall (m : JsMap.t V),
  JsMap.size (skipn n m) <= JsMap.size m.
Proof.
  induction n as [|n IH]; intros [|[[k v]|] m]; simpl; auto.
Qed.

(** C8, as the code has it.  In every run from the initial state in
    which [closeAllSessions] is not called: whenever the table is
    non-empty the timer reference is set and names the one armed
    interval; the segment of [openSession] that inserts a session leaves
    the reference set; [closeSession] never touches it, also when it
    removes the last session; and a segment of the interval callback
    entered with an empty table ends the callback and clears the
    reference and the interval. *)
Theorem reaper_armed_while_sessions_exist :
  forall evs c id options b p u now pos,
    Forall (fun ee => snd ee <> CallCloseAll) evs ->
    run evs initial = Some c ->
    (getSessionCount (state c) = 0 \/
     exists t, cleanupTimer (state c) = Some t /\ intervals (state c) = [t]) /\
    (exists t,
       cleanupTimer (fst (openSession_finish (state c) options b p u now)) = Some t) /\
    cleanupTimer (fst (closeSession (state c) id)) = cleanupTimer (state c) /\
    (0 < getSessionCount (state c) \/
     (tick_from (state c) now pos =
        (match cleanupTimer (state c) with
         | Some t => clearCleanup t (state c)
         | None => state c
         end, None) /\
      cleanupTimer (fst (tick_from (state c) now pos)) = None /\
      intervals (fst (tick_from (state c) now pos)) = [])).
Proof.
  intros evs c id options b p u now pos Hok Hrun.
  assert (Harmed : armed_if_nonempty (state c)).
  { apply (run_armed evs initial c); auto.
    - intros Hpos. vm_compute in Hpos. lia.
    - intros n []. }
  assert (Htracked : timer_tracked (state c)).
  { apply (run_timer_tracked evs initial c); auto. reflexivity. }
  unfold timer_tracked in Htracked.
  split; [|split; [|split]].
  - destruct (getSessionCount (state c)) eqn:En; [now left | right].
    destruct (cleanupTimer (state c)) as [t|] eqn:Et.
    + exists t. now split.
    + exfalso. apply Harmed; [lia | assumption].
  - pose proof (startCleanup_armed
      (on_disconnected b u
         (with_sessions (JsMap.set (sessions (state c)) u (mkSession b p now)) (state c))))
      as Hs.
    unfold openSession_finish. simpl.
    destruct (cleanupTimer (startCleanup _)) as [t|]; [now exists t | contradiction].
  - apply cleanupTimer_closeSession.
  - destruct (getSessionCount (state c)) eqn:En; [right | left; lia].
    unfold tick_from. rewrite next_idle_none_if_empty.
    + rewrite En. simpl.
      destruct (cleanupTimer (state c)) as [t|] eqn:Et; simpl.
      * rewrite Htracked. simpl. destruct (Nat.eq_dec t t); [auto | contradiction].
      * auto.
    + pose proof (size_skipn pos (sessions (state c))).
      unfold getSessionCount in En. lia.
Qed.

Definition opened_then_closed : list (Env * Event) :=
  open_alone 0 0 "s1" None ++ [(mkEnv 1 "", CallClose "s1")].

Lemma reaper_armed_while_sessions_exist_witness :
  (getSessionCount (state (run_or_initial opened_then_closed)) = 0 \/
   exists t, cleanupTimer (state (run_or_initial opened_then_closed)) = Some t /\
             intervals (state (run_or_initial opened_then_closed)) = [t]) /\
  cleanupTimer (fst (closeSession (state (run_or_initial opened_then_closed)) "s1")) =
    cleanupTimer (state (run_or_initial opened_then_closed)).
Proof.
  destruct (reaper_armed_while_sessions_exist opened_then_closed
              (run_or_initial opened_then_closed) "s1" None (mkBrowser 1 false) 0 "s2" 60000 0)
    as [H1 [_ [H3 _]]].
  - repeat (constructor; [simpl; discriminate|]). constructor.
  - reflexivity.
  - exact (conj H1 H3).
Defined.

(** C8 as the specification states it: the reference is set if and only
    if the table is non-empty, at every reachable state. *)
Definition reaper_present_iff_sessions : Prop :=
  forall evs c,
    run evs initial = Some c ->
    (cleanupTimer (state c) <> None <-> 0 < getSessionCount (state c)).

(** After the only session is closed the table is empty and the timer is
    still set: nothing stops it until its next tick. *)
Lemma reaper_outlives_last_session :
  (exists c,
     run opened_then_closed initial = Some c /\
     getSessionCount (state c) = 0 /\
     cleanupTimer (state c) = Some 0 /\
     intervals (state c) = [0]) /\
  ~ reaper_present_iff_sessions.
Proof.
  split.
  - eexists. split; [vm_compute; reflexivity|]. repeat split.
  - intros Hiff.
    destruct (Hiff opened_then_closed (run_or_initial opened_then_closed) eq_refl)
      as [Hcontra _].
    assert (Hlt : 0 < getSessionCount (state (run_or_initial opened_then_closed))).
    { apply Hcontra. vm_compute. discriminate. }
    vm_compute in Hlt. lia.
Qed.

(** The other direction fails too, on the shutdown path: a session
    inserted by an [openSession] that was in flight when
    [closeAllSessions] was called is left in the table when the call
    clears the timer. *)
Example closeAll_during_open :
  exists c,
    run (open_alone 0 0 "s1" None ++
         [ (mkEnv 1 "", CallOpen "key" None);
           (mkEnv 2 "", CallCloseAll);
           (mkEnv 3 "", Resume 1 (VBrowser false));
           (mkEnv 4 "s2", Resume 1 (VPages [0]));
           (mkEnv 5 "", Resume 2 VDone);
           (mkEnv 6 "", Resume 2 VDone) ]) initial = Some c /\
    getSessionCount (state c) = 1 /\
    cleanupTimer (state c) = None /\
    intervals (state c) = [].
Proof. eexists. split; [vm_compute; reflexivity|]. repeat split. Qed.

(** ** C9: the engine descriptor *)

(** The build of browser.ts on the spider-browser SDK differs from the
    one above in what [openSession] awaits and in the default descriptor;
    its options and its returned record are these. *)
Module SpiderBrowserBuild.

Record Options : Type := mkOptions {
  opt_browser : option string;
  opt_stealth : option Z
}.

(** [options?.browser] *)
Definition requested_browser (options : option Options) : option string :=
  match options with
  | Some o => opt_browser o
  | None => None
  end.

(** [options?.browser ?? "auto"] *)
Definition resolved_browserType (options : option Options) : string :=
  match requested_browser options with
  | Some s => s
  | None => "auto"%string
  end.

(** The record [openSession] returns for the id it generated. *)
Definition openSession_result (options : option Options) (id : string)
    : OpenResult :=
  mkOpenResult id (resolved_browserType options).

End SpiderBrowserBuild.

(** The engines [spider_browser_open] accepts besides "auto". *)
Definition concrete_engines : list string :=
  ["chrome"; "chrome-new"; "firefox"]%string.

Definition is_concrete_engine (s : string) : bool :=
  existsb (String.eqb s) concrete_engines.

(** C9 as the specification states it: when "auto" was requested, the
    descriptor returned by a successful [openSession] is a concrete
    engine name. *)
Definition descriptor_resolves_auto : Prop :=
  forall st options b p id now,
    requested_browser options = Some "auto"%string ->
    is_concrete_engine
      (browserType (snd (openSession_finish st options b p id now))) = true.

(** A request for "auto" is answered with "auto", in both builds. *)
Lemma descriptor_auto_not_resolved :
  browserType
    (snd (openSession_finish initial_state
            (Some (mkOptions (Some "auto"%string) None None None))
            (mkBrowser 0 false) 0 "s1" 0)) = "auto"%string /\
  browserType
    (SpiderBrowserBuild.openSession_result
       (Some (SpiderBrowserBuild.mkOptions (Some "auto"%string) None)) "s1")
    = "auto"%string /\
  is_concrete_engine "auto" = false /\
  ~ descriptor_resolves_auto.
Proof.
  repeat split.
  intros H.
  specialize (H initial_state (Some (mkOptions (Some "auto"%string) None None None))
                (mkBrowser 0 false) 0 "s1"%string 0%Z eq_refl).
  vm_compute in H. discriminate.
Qed.

(** C9, as the code has it.  The descriptor returned by a successful
    [openSession] is the requested engine whenever one was requested
    ("auto" included, unresolved), and otherwise the build's default:
    "chrome" in the puppeteer build, "auto" in the spider-browser build.
    It does not depend on the browser that was connected. *)
Theorem openSession_echoes_requested_browser :
  forall st options options' b b' p p' id now env k c,
    browserType (snd (openSession_finish st options b p id now)) =
      match requested_browser options with
      | Some s => s
      | None => "chrome"%string
      end /\
    sessionId (snd (openSession_finish st options b p id now)) = id /\
    snd (openSession_finish st options b' p' id now) =
      snd (openSession_finish st options b p id now) /\
    outs (finish_open env k options b p c) =
      outs c ++ [OpenResolved (mkOpenResult (uuid env) (resolved_browserType options))] /\
    browserType (SpiderBrowserBuild.openSession_result options' id) =
      match SpiderBrowserBuild.requested_browser options' with
      | Some s => s
      | None => "auto"%string
      end.
Proof.
  intros. repeat split.
Qed.

(** ** C10: one teardown per browser *)

(** The places that hold a browser: the table, the locals of suspended
    [openSession] calls, and the log of [close()] calls.  A browser
    object is in at most one of them, at most once. *)
Definition table_browsers (m : JsMap.t Session) : list nat :=
  map (fun s => bid (browser s)) (JsMap.values m).

Definition task_browsers (t : option Task) : list nat :=
  match t with
  | Some (OpenListingPages _ b) => [bid b]
  | Some (OpenCreatingPage _ b) => [bid b]
  | _ => []
  end.

Definition cnt (n : nat) (l : list nat) : nat := count_occ Nat.eq_dec l n.

Definition one_if (n m : nat) : nat := if Nat.eq_dec m n then 1 else 0.

Definition held_in_state (n : nat) (st : State) : nat :=
  cnt n (table_browsers (sessions st)) + cnt n (closeCalls st).

Definition held (n : nat) (c : Config) : nat :=
  held_in_state n (state c) + cnt n (flat_map task_browsers (pool c)).

Definition owned_once (c : Config) : Prop :=
  forall n, held n c <= 1 /\ (nextBrowser (state c) <= n -> held n c = 0).

Arguments cnt : simpl never.
Arguments one_if : simpl never.

Lemma cnt_nil n : cnt n [] = 0.
Proof. reflexivity. Qed.

Lemma cnt_cons n x l : cnt n (x :: l) = one_if n x + cnt n l.
Proof. unfold cnt, one_if. simpl. now destruct (Nat.eq_dec x n). Qed.

Lemma cnt_app n l1 l2 : cnt n (l1 ++ l2) = cnt n l1 + cnt n l2.
Proof. unfold cnt. apply count_occ_app. Qed.

Lemma cnt_table_delete n : forall (m : JsMap.t Session) k,
  cnt n (table_browsers (JsMap.delete m k)) +
  match JsMap.get m k with
  | Some s => one_if n (bid (browser s))
  | None => 0
  end = cnt n (table_browsers m).
Proof.
  unfold table_browsers.
  induction m as [|[[k' s']|] m IH]; intros k; simpl.
  - reflexivity.
  - destruct (String.eqb k' k); simpl.
    + rewrite cnt_cons. lia.
    + rewrite !cnt_cons, <- (IH k). lia.
  - apply IH.
Qed.

Lemma cnt_table_set n : forall (m : JsMap.t Session) k v,
  cnt n (table_browsers (JsMap.set m k v)) +
  match JsMap.get m k with
  | Some s => one_if n (bid (browser s))
  | None => 0
  end = cnt n (table_browsers m) + one_if n (bid (browser v)).
Proof.
  unfold table_browsers.
  induction m as [|[[k' s']|] m IH]; intros k v; simpl.
  - rewrite cnt_cons, !cnt_nil. lia.
  - destruct (String.eqb k' k); simpl.
    + rewrite !cnt_cons. lia.
    + rewrite !cnt_cons. specialize (IH k v). lia.
  - apply IH.
Qed.

Lemma cnt_pool_update n : forall (l : list (option Task)) k x y,
  nth_error l k = Some x ->
  cnt n (flat_map task_browsers (update l k y)) + cnt n (task_browsers x) =
  cnt n (flat_map task_browsers l) + cnt n (task_browsers y).
Proof.
  induction l as [|a l IH]; intros [|k] x y H; simpl in *; try discriminate.
  - injection H as ->. rewrite !cnt_app. lia.
  - rewrite !cnt_app. specialize (IH k x y H). lia.
Qed.

Lemma cnt_pool_spawn n l t :
  cnt n (flat_map task_browsers (l ++ [t])) =
  cnt n (flat_map task_browsers l) + cnt n (task_browsers t).
Proof.
  rewrite flat_map_app, cnt_app. simpl. now rewrite app_nil_r.
Qed.

(** [closeSession] moves a browser from the table to the log. *)
Lemma held_closeSession n st id :
  held_in_state n (fst (closeSession st id)) = held_in_state n st /\
  nextBrowser (fst (closeSession st id)) = nextBrowser st.
Proof.
  unfold held_in_state, closeSession.
  pose proof (cnt_table_delete n (sessions st) id) as Hd.
  destruct (JsMap.get (sessions st) id) as [s|]; simpl; [|auto].
  rewrite cnt_app, cnt_cons, cnt_nil. split; [lia | reflexivity].
Qed.

Lemma held_closeEach n ids : forall st,
  held_in_state n (fst (closeEach st ids)) = held_in_state n st /\
  nextBrowser (fst (closeEach st ids)) = nextBrowser st.
Proof.
  induction ids as [|id ids IH]; intros st; simpl; [auto|].
  pose proof (held_closeSession n st id) as [H1 H2].
  destruct (closeSession st id) as [st1 aw]. simpl in H1, H2.
  pose proof (IH st1) as [H3 H4].
  destruct (closeEach st1 ids) as [st2 m]. simpl in *. split; congruence.
Qed.

Lemma held_tick_from n st now pos :
  held_in_state n (fst (tick_from st now pos)) = held_in_state n st /\
  nextBrowser (fst (tick_from st now pos)) = nextBrowser st.
Proof.
  unfold tick_from.
  destruct (next_idle now (skipn pos (sessions st)) pos) as [[pos' id]|]; simpl.
  - apply held_closeSession.
  - destruct (cleanupTimer st); [|auto].
    destruct (getSessionCount st =? 0); auto.
Qed.

Lemma held_getPage n st id now :
  held_in_state n (fst (getPage st id now)) = held_in_state n st /\
  nextBrowser (fst (getPage st id now)) = nextBrowser st.
Proof.
  unfold held_in_state, getPage.
  destruct (JsMap.get (sessions st) id) as [s|] eqn:E; simpl; [|auto].
  pose proof (cnt_table_set n (sessions st) id
                (mkSession (browser s) (page s) now)) as Hs.
  rewrite E in Hs. simpl in Hs. split; [lia | reflexivity].
Qed.

Lemma held_run_listeners n b ls : forall st,
  held_in_state n (run_listeners b ls st) <= held_in_state n st /\
  nextBrowser (run_listeners b ls st) = nextBrowser st.
Proof.
  induction ls as [|[b' id] ls IH]; intros st; simpl; [auto|].
  destruct (IH (if b' =? b
                then with_sessions (JsMap.delete (sessions st) id) st
                else st)) as [H1 H2].
  rewrite H2. destruct (b' =? b); [|auto].
  unfold held_in_state in *. simpl in *.
  pose proof (cnt_table_delete n (sessions st) id). split; [lia | reflexivity].
Qed.

Lemma held_openSession_finish n st options b p id now :
  held_in_state n (fst (openSession_finish st options b p id now)) <=
    held_in_state n st + one_if n (bid b) /\
  nextBrowser (fst (openSession_finish st options b p id now)) = nextBrowser st.
Proof.
  unfold held_in_state, openSession_finish. simpl.
  rewrite sessions_startCleanup, closeCalls_startCleanup, nextBrowser_startCleanup.
  simpl.
  pose proof (cnt_table_set n (sessions st) id (mkSession b p now)) as Hs.
  simpl in Hs. split; [lia | reflexivity].
Qed.

Lemma held_closeAllSessions_finish n st :
  held_in_state n (closeAllSessions_finish st) = held_in_state n st /\
  nextBrowser (closeAllSessions_finish st) = nextBrowser st.
Proof.
  unfold closeAllSessions_finish. destruct (cleanupTimer st); auto.
Qed.

Lemma held_update n c k x y st :
  nth_error (pool c) k = Some x ->
  held n (mkConfig st (update (pool c) k y) (outs c)) + cnt n (task_browsers x) =
  held_in_state n st + cnt n (flat_map task_browsers (pool c)) + cnt n (task_browsers y).
Proof.
  intros Hk. unfold held. simpl.
  pose proof (cnt_pool_update n (pool c) k x y Hk). lia.
Qed.

(** A step either leaves every browser's holder count no larger, or is
    the resolution of a connect, which creates the browser named by
    [nextBrowser] and hands it to the resumed call. *)
Lemma step_held env ev c c' :
  step env ev c = Some c' ->
  (nextBrowser (state c') = nextBrowser (state c) /\
   forall n, held n c' <= held n c) \/
  (nextBrowser (state c') = S (nextBrowser (state c)) /\
   forall n, held n c' = held n c + one_if n (nextBrowser (state c))).
Proof.
  intros Hs. destruct ev as [key o|id|id| |t|k v|b]; simpl in Hs.
  - left. destruct (openSession_enter (state c)); injection Hs as <-;
      (split; [reflexivity|]); intros n; unfold held; simpl; [lia|].
    rewrite cnt_pool_spawn. simpl. rewrite cnt_nil. lia.
  - left. pose proof (fun n => held_getPage n (state c) id (clock env)) as Hg.
    destruct (getPage (state c) id (clock env)) as [st' [e|p]];
      injection Hs as <-; simpl in *;
      (split; [apply (Hg 0)|]); intros n; unfold held; simpl;
      destruct (Hg n) as [-> _]; lia.
  - left. pose proof (fun n => held_closeSession n (state c) id) as Hc.
    destruct (closeSession (state c) id) as [st' [|]];
      injection Hs as <-; simpl in *;
      (split; [apply (Hc 0)|]); intros n; unfold held; simpl;
      destruct (Hc n) as [-> _]; rewrite ?cnt_pool_spawn; simpl; rewrite ?cnt_nil; lia.
  - left. unfold closeAllSessions_enter in Hs.
    pose proof (fun n => held_closeEach n (JsMap.keys (sessions (state c))) (state c)) as Hc.
    destruct (closeEach (state c) (JsMap.keys (sessions (state c)))) as [st' m].
    injection Hs as <-. simpl in *.
    split; [apply (Hc 0)|]. intros n. unfold held. simpl.
    destruct (Hc n) as [-> _]. rewrite cnt_pool_spawn. simpl. rewrite cnt_nil. lia.
  - left. destruct (existsb (Nat.eqb t) (intervals (state c))); [|discriminate].
    pose proof (fun n => held_tick_from n (state c) (clock env) 0) as Ht.
    destruct (tick_from (state c) (clock env) 0) as [st' [pos'|]];
      injection Hs as <-; simpl in *;
      (split; [apply (Ht 0)|]); intros n; unfold held; simpl;
      destruct (Ht n) as [-> _]; rewrite ?cnt_pool_spawn; simpl; rewrite ?cnt_nil; lia.
  - destruct (nth_error (pool c) k) as [[task|]|] eqn:Ek; try discriminate.
    unfold resume, finish_open in Hs.
    pose proof (fun n y st => held_update n c k (Some task) y st Ek) as Hu.
    destruct task as [key o|o b|o b| |now pos|[|m]];
      destruct v as [thr|[|p ps]|p| |e]; try discriminate.
    all: try (pose proof (fun n => held_openSession_finish n (state c) o b p
                                     (uuid env) (clock env)) as Hf;
              destruct (openSession_finish (state c) o b p (uuid env) (clock env))
                as [st' r]; simpl in Hf).
    all: try (pose proof (fun n => held_tick_from n (state c) now pos) as Ht;
              destruct (tick_from (state c) now pos) as [st' [pos'|]]; simpl in Ht).
    all: injection Hs as <-; simpl.
    (* the connect resolved *)
    1: { right. split; [reflexivity|]. intros n.
         specialize (Hu n (Some (OpenListingPages o (mkBrowser (nextBrowser (state c)) thr)))
                       (snd (new_browser thr (state c)))).
         simpl in Hu. rewrite cnt_cons, !cnt_nil in Hu.
         unfold held in *. simpl in *. unfold held_in_state in *. simpl in *. lia. }
    all: left.
    all: split;
      [first [reflexivity | apply (Hf 0) | apply (Ht 0)
             | exact (proj2 (held_closeAllSessions_finish 0 (state c)))]|].
    all: intros n.
    all: try (specialize (Hf n)); try (specialize (Ht n)).
    all: pose proof (held_closeAllSessions_finish n (state c)) as Hfin.
    all: unfold emit, retire, suspend, with_state; simpl.
    all: match goal with
         | |- held _ (mkConfig ?st (update _ _ ?y) _) <= _ =>
             specialize (Hu n y st)
         end.
    all: simpl in Hu; rewrite ?cnt_cons, ?cnt_nil in Hu.
    all: unfold held in *; simpl in *; try lia.
  - left. injection Hs as <-. simpl.
    pose proof (fun n => held_run_listeners n b (listeners (state c)) (state c)) as Hl.
    split; [apply (Hl 0)|]. intros n. unfold held. simpl.
    unfold emit_disconnected. destruct (Hl n) as [H1 _]. lia.
Qed.

Lemma step_owned_once env ev c c' :
  owned_once c -> step env ev c = Some c' -> owned_once c'.
Proof.
  intros H Hs n. destruct (H n) as [H1 H2].
  destruct (step_held env ev c c' Hs) as [[Hnb Hle]|[Hnb Heq]].
  - rewrite Hnb. specialize (Hle n). split; [lia|]. intros Hn. specialize (H2 Hn). lia.
  - rewrite Hnb, (Heq n). unfold one_if.
    destruct (Nat.eq_dec (nextBrowser (state c)) n) as [<-|Hne].
    + rewrite (H2 (le_n _)). split; [lia|]. intros Hn. lia.
    + split; [lia|]. intros Hn. rewrite H2; lia.
Qed.

Lemma run_owned_once evs c c' :
  owned_once c -> run evs c = Some c' -> owned_once c'.
Proof.
  intros H Hr.
  apply (run_invariant owned_once (fun _ => True)) with (evs := evs) (c := c); auto.
  - intros. eapply step_owned_once; eassumption.
  - clear. induction evs; constructor; auto.
Qed.

Lemma owned_once_initial : owned_once initial.
Proof. intros n. split; [vm_compute; lia | reflexivity]. Qed.

(** C10.  In every run from the initial state, [close()] is called at
    most once on any browser: the log of [close()] calls never has a
    browser twice, whatever mixture of [closeSession], reaper ticks,
    [closeAllSessions] and disconnects the run contains.  The reason is
    the one the claim gives: a browser whose [close()] has been called
    is no longer in the table (and no two records share a browser), so
    no later lookup can reach it; calling [closeSession] again on an id
    that is absent calls nothing. *)
Theorem teardown_at_most_once :
  forall evs c id,
    run evs initial = Some c ->
    NoDup (closeCalls (state c)) /\
    NoDup (table_browsers (sessions (state c))) /\
    (forall s, In s (JsMap.values (sessions (state c))) ->
               ~ In (bid (browser s)) (closeCalls (state c))) /\
    (JsMap.get (sessions (state c)) id <> None \/
     closeCalls (fst (closeSession (state c) id)) = closeCalls (state c)).
Proof.
  intros evs c id Hrun.
  pose proof (run_owned_once evs initial c owned_once_initial Hrun) as Hown.
  assert (Hle : forall n,
    cnt n (table_browsers (sessions (state c))) + cnt n (closeCalls (state c)) <= 1).
  { intros n. destruct (Hown n) as [H1 _]. unfold held, held_in_state in H1. lia. }
  split; [|split; [|split]].
  - apply (NoDup_count_occ Nat.eq_dec). intros n. specialize (Hle n). unfold cnt in Hle. lia.
  - apply (NoDup_count_occ Nat.eq_dec). intros n. specialize (Hle n). unfold cnt in Hle. lia.
  - intros s Hin Hcl.
    specialize (Hle (bid (browser s))). unfold cnt in Hle.
    apply (count_occ_In Nat.eq_dec) in Hcl.
    assert (Hin' : In (bid (browser s)) (table_browsers (sessions (state c)))).
    { unfold table_browsers. apply in_map_iff. exists s. now split. }
    apply (count_occ_In Nat.eq_dec) in Hin'. lia.
  - destruct (JsMap.get (sessions (state c)) id) eqn:E; [left; discriminate | right].
    now rewrite (closeSession_absent (state c) id E).
Qed.

(** A session closed by an explicit call, then by a second call, a
    reaper tick and [closeAllSessions]. *)
Definition closed_many_times : list (Env * Event) :=
  open_alone 0 0 "s1" None ++
  [ (mkEnv 1 "", CallClose "s1");
    (mkEnv 2 "", CallClose "s1");
    (mkEnv 400000 "", Fire 0);
    (mkEnv 400001 "", CallCloseAll);
    (mkEnv 400002 "", Resume 1 VDone) ].

Lemma teardown_at_most_once_witness :
  run closed_many_times initial = Some (run_or_initial closed_many_times) /\
  closeCalls (state (run_or_initial closed_many_times)) = [0] /\
  NoDup (closeCalls (state (run_or_initial closed_many_times))).
Proof.
  split; [reflexivity|]. split; [reflexivity|].
  apply (teardown_at_most_once closed_many_times
           (run_or_initial closed_many_times) "s1").
  reflexivity.
Defined.

(** * Further properties of the session manager *)

(** ** Lookups touch one timestamp and nothing else *)

Lemma keys_set_get {V : Type} (m : JsMap.t V) k v v0 :
  JsMap.get m k = Some v0 -> JsMap.keys (JsMap.set m k v) = JsMap.keys m.
Proof.
  intros H. apply JsMap.keys_set_present. eapply JsMap.get_Some_keys; eassumption.
Qed.

(** X1.  [getPage] changes nothing but the [lastAccess] of the session
    it looks up: the keys and their order, the count, every other
    session, the browser and page of the session itself, the log of
    [close()] calls, the timer and the listeners are as before; and when
    the id is absent the whole state is unchanged. *)
Theorem getPage_frame :
  forall st id now,
    JsMap.keys (sessions (fst (getPage st id now))) = JsMap.keys (sessions st) /\
    getSessionCount (fst (getPage st id now)) = getSessionCount st /\
    (forall id', id' <> id ->
       JsMap.get (sessions (fst (getPage st id now))) id' =
       JsMap.get (sessions st) id') /\
    JsMap.get (sessions (fst (getPage st id now))) id =
      option_map (fun s => mkSession (browser s) (page s) now)
        (JsMap.get (sessions st) id) /\
    with_sessions (sessions st) (fst (getPage st id now)) = st /\
    (JsMap.get (sessions st) id <> None \/ fst (getPage st id now) = st).
Proof.
  intros st id now. unfold getPage, getSessionCount.
  destruct (JsMap.get (sessions st) id) as [s|] eqn:E; simpl.
  - rewrite (@keys_set_get _ _ _ (mkSession (browser s) (page s) now) _ E).
    rewrite (@JsMap.size_set_present _ _ _ (mkSession (browser s) (page s) now) _ E).
    repeat split.
    + intros id' Hne. now apply JsMap.get_set_ne.
    + apply JsMap.get_set_eq.
    + now destruct st.
    + left. discriminate.
  - repeat split; auto. now destruct st.
Qed.

(** ** One interval at most *)

(** X2.  In every run from the initial state, with or without
    [closeAllSessions], at most one interval is armed, and it is the one
    [cleanupTimer] refers to: [startCleanup] never arms a second timer
    and no clearing leaves a timer running unreferenced. *)
Theorem single_interval :
  forall evs c,
    run evs initial = Some c ->
    intervals (state c) =
      match cleanupTimer (state c) with Some t => [t] | None => [] end /\
    List.length (intervals (state c)) <= 1.
Proof.
  intros evs c Hrun.
  assert (H : timer_tracked (state c)).
  { apply (run_timer_tracked evs initial c); [reflexivity | assumption]. }
  unfold timer_tracked in H. split; [exact H|].
  rewrite H. destruct (cleanupTimer (state c)); simpl; lia.
Qed.

(** Two opens, a tick, a close-all and a reopen. *)
Definition timer_churn : list (Env * Event) :=
  open_alone 0 0 "s1" None ++ open_alone 1 1 "s2" None ++
  [ (mkEnv 60000 "", Fire 0);
    (mkEnv 60001 "", CallCloseAll);
    (mkEnv 60002 "", Resume 2 VDone);
    (mkEnv 60003 "", Resume 2 VDone);
    (mkEnv 60004 "", Resume 2 VDone) ] ++
  open_alone 3 60005 "s3" None.

Lemma single_interval_witness :
  run timer_churn initial = Some (run_or_initial timer_churn) /\
  intervals (state (run_or_initial timer_churn)) = [1] /\
  cleanupTimer (state (run_or_initial timer_churn)) = Some 1.
Proof.
  assert (Hrun : run timer_churn initial = Some (run_or_initial timer_churn))
    by (vm_compute; reflexivity).
  split; [exact Hrun|].
  destruct (single_interval timer_churn (run_or_initial timer_churn) Hrun)
    as [H _].
  split; [vm_compute in H; exact H | vm_compute; reflexivity].
Defined.

(** ** How a scan ends *)

Lemma get_reaped_Some now : forall (m : JsMap.t Session) id s,
  JsMap.get (reaped now m) id = Some s -> idle now s = false.
Proof.
  induction m as [|[[k s']|] m IH]; simpl; intros id s H.
  - discriminate.
  - destruct (idle now s') eqn:Ei; simpl in H.
    + eapply IH; eassumption.
    + destruct (String.eqb k id).
      * injection H as <-. exact Ei.
      * eapply IH; eassumption.
  - eapply IH; eassumption.
Qed.

(** X3.  A reaper scan that runs alone terminates; no session it leaves
    in the table is idle at the scan's time; and it clears the timer
    exactly when it leaves the table empty, otherwise the timer stays as
    it was. *)
Theorem scan_ends :
  forall st now,
    wf_state st ->
    exists st',
      tick_run (List.length (sessions st)) st now 0 = Some st' /\
      (forall id s,
         JsMap.get (sessions st') id = Some s ->
         (now - lastAccess s <= SESSION_TIMEOUT_MS)%Z) /\
      getSessionCount st' <= getSessionCount st /\
      cleanupTimer st' =
        (if getSessionCount st' =? 0 then None else cleanupTimer st).
Proof.
  intros st now Hwf.
  destruct (tick_run_spec now (sessions st) [] st (List.length (sessions st)))
    as [st' [Hrun [Hses [_ Htm]]]]; auto.
  simpl in Hrun, Hses, Htm. exists st'. split; [exact Hrun|].
  unfold getSessionCount. rewrite Hses. repeat split.
  - intros id s H. apply get_reaped_Some in H. unfold idle in H.
    destruct (Z.gtb_spec (now - lastAccess s) SESSION_TIMEOUT_MS); [discriminate | lia].
  - clear. induction (sessions st) as [|[[k s]|] m IH]; simpl; auto.
    destruct (idle now s); simpl; lia.
  - exact Htm.
Qed.

Lemma scan_ends_witness :
  exists st',
    tick_run 1 (state one_session) 360000 0 = Some st' /\
    getSessionCount st' <= getSessionCount (state one_session) /\
    cleanupTimer st' =
      (if getSessionCount st' =? 0 then None else cleanupTimer (state one_session)).
Proof.
  destruct (scan_ends (state one_session) 360000) as [st' [H1 [_ [H3 H4]]]].
  - vm_compute. repeat constructor. simpl. tauto.
  - exists st'. exact (conj H1 (conj H3 H4)).
Defined.

(** ** Opens issued one at a time respect the limit *)

Definition is_open_task (t : option Task) : bool :=
  match t with
  | Some (OpenConnecting _ _) => true
  | Some (OpenListingPages _ _) => true
  | Some (OpenCreatingPage _ _) => true
  | _ => false
  end.

(** The number of [openSession] calls that passed the capacity check and
    have not returned yet. *)
Fixpoint opens_in_flight (ts : list (option Task)) : nat :=
  match ts with
  | [] => 0
  | t :: ts' => (if is_open_task t then 1 else 0) + opens_in_flight ts'
  end.

(** No [openSession] is called while another one is still in flight. *)
Fixpoint opens_serial (evs : list (Env * Event)) (c : Config) : bool :=
  match evs with
  | [] => true
  | (env, ev) :: evs' =>
      match ev with
      | CallOpen _ _ => opens_in_flight (pool c) =? 0
      | _ => true
      end &&
      match step env ev c with
      | Some c' => opens_serial evs' c'
      | None => true
      end
  end.

Lemma in_flight_spawn ts t :
  opens_in_flight (ts ++ [t]) =
  opens_in_flight ts + (if is_open_task t then 1 else 0).
Proof. induction ts as [|a ts IH]; simpl; lia. Qed.

Lemma in_flight_update : forall ts k x y,
  nth_error ts k = Some x ->
  opens_in_flight (update ts k y) + (if is_open_task x then 1 else 0) =
  opens_in_flight ts + (if is_open_task y then 1 else 0).
Proof.
  induction ts as [|a ts IH]; intros [|k] x y H; simpl in *; try discriminate.
  - injection H as ->. lia.
  - specialize (IH k x y H). lia.
Qed.

Lemma size_set_le {V : Type} (m : JsMap.t V) k v :
  JsMap.size (JsMap.set m k v) <= S (JsMap.size m).
Proof.
  destruct (JsMap.get m k) as [v0|] eqn:E.
  - rewrite (@JsMap.size_set_present _ _ _ v _ E). lia.
  - rewrite (@JsMap.size_set_fresh _ _ _ v E). lia.
Qed.

Lemma count_closeSession st id :
  getSessionCount (fst (closeSession st id)) <= getSessionCount st.
Proof.
  unfold getSessionCount. rewrite sessions_closeSession. apply JsMap.size_delete_le.
Qed.

Lemma count_closeEach ids : forall st,
  getSessionCount (fst (closeEach st ids)) <= getSessionCount st.
Proof.
  induction ids as [|id ids IH]; intros st; simpl; [lia|].
  pose proof (count_closeSession st id) as H1.
  destruct (closeSession st id) as [st1 aw]. simpl in H1.
  specialize (IH st1). destruct (closeEach st1 ids) as [st2 n]. simpl in *. lia.
Qed.

Lemma count_tick_from st now pos :
  getSessionCount (fst (tick_from st now pos)) <= getSessionCount st.
Proof.
  unfold tick_from.
  destruct (next_idle now (skipn pos (sessions st)) pos) as [[pos' id]|]; simpl.
  - apply count_closeSession.
  - destruct (cleanupTimer st); [|lia].
    destruct (getSessionCount st =? 0); simpl; unfold getSessionCount; simpl; lia.
Qed.

Lemma count_run_listeners b ls : forall st,
  getSessionCount (run_listeners b ls st) <= getSessionCount st.
Proof.
  induction ls as [|[b' id] ls IH]; intros st; simpl; [lia|].
  etransitivity; [apply IH|].
  destruct (b' =? b); [|lia].
  unfold getSessionCount. simpl. apply JsMap.size_delete_le.
Qed.

Lemma count_openSession_finish st options b p id now :
  getSessionCount (fst (openSession_finish st options b p id now)) <=
  S (getSessionCount st).
Proof.
  unfold getSessionCount. rewrite sessions_openSession_finish. apply size_set_le.
Qed.

(** Sessions plus admitted opens in flight: only an admitted
    [openSession] raises the sum, and by one. *)
Definition committed (c : Config) : nat :=
  getSessionCount (state c) + opens_in_flight (pool c).

Lemma step_committed env ev c c' :
  step env ev c = Some c' ->
  match ev with
  | CallOpen _ _ =>
      if MAX_SESSIONS <=? getSessionCount (state c)
      then committed c' = committed c
      else committed c' = S (committed c)
  | _ => committed c' <= committed c
  end.
Proof.
  intros Hs. unfold committed.
  destruct ev as [key o|id|id| |t|k v|b]; simpl in Hs.
  - unfold openSession_enter in Hs.
    destruct (MAX_SESSIONS <=? getSessionCount (state c));
      injection Hs as <-; simpl; [reflexivity|].
    rewrite in_flight_spawn. simpl. lia.
  - pose proof (proj1 (proj2 (getPage_frame (state c) id (clock env)))) as Hg.
    destruct (getPage (state c) id (clock env)) as [st' [e|p]];
      injection Hs as <-; simpl in *; lia.
  - pose proof (count_closeSession (state c) id) as Hc.
    destruct (closeSession (state c) id) as [st' [|]];
      injection Hs as <-; simpl in *; rewrite ?in_flight_spawn; simpl; lia.
  - unfold closeAllSessions_enter in Hs.
    pose proof (count_closeEach (JsMap.keys (sessions (state c))) (state c)) as Hc.
    destruct (closeEach (state c) (JsMap.keys (sessions (state c)))) as [st' n].
    injection Hs as <-. simpl in *. rewrite in_flight_spawn. simpl. lia.
  - destruct (existsb (Nat.eqb t) (intervals (state c))); [|discriminate].
    pose proof (count_tick_from (state c) (clock env) 0) as Ht.
    destruct (tick_from (state c) (clock env) 0) as [st' [pos'|]];
      injection Hs as <-; simpl in *; rewrite ?in_flight_spawn; simpl; lia.
  - destruct (nth_error (pool c) k) as [[task|]|] eqn:Ek; try discriminate.
    unfold resume, finish_open in Hs.
    pose proof (fun y => in_flight_update (pool c) k (Some task) y Ek) as Hu.
    destruct task as [key o|o b|o b| |now pos|[|m]];
      destruct v as [thr|[|p ps]|p| |e]; try discriminate.
    all: try (pose proof (count_openSession_finish (state c) o b p
                            (uuid env) (clock env)) as Hf;
              destruct (openSession_finish (state c) o b p (uuid env) (clock env))
                as [st' r]; simpl in Hf).
    all: try (pose proof (count_tick_from (state c) now pos) as Ht;
              destruct (tick_from (state c) now pos) as [st' [pos'|]]; simpl in Ht).
    all: injection Hs as <-; simpl.
    all: match goal with
         | |- context [update _ _ ?y] => specialize (Hu y)
         end.
    all: simpl in Hu; unfold closeAllSessions_finish, getSessionCount in *;
         try destruct (cleanupTimer (state c)); simpl in *; lia.
  - injection Hs as <-. simpl.
    pose proof (count_run_listeners b (listeners (state c)) (state c)).
    unfold emit_disconnected. lia.
Qed.

Lemma serial_committed : forall evs c c',
  committed c <= MAX_SESSIONS ->
  opens_serial evs c = true ->
  run evs c = Some c' ->
  committed c' <= MAX_SESSIONS.
Proof.
  induction evs as [|[env ev] evs IH]; intros c c' Hc Hser Hrun; simpl in *.
  - injection Hrun as <-. exact Hc.
  - destruct (step env ev c) as [c1|] eqn:Es; [|discriminate].
    apply andb_prop in Hser as [Hgate Hser].
    apply (IH c1 c'); auto.
    pose proof (step_committed env ev c c1 Es) as Hstep.
    destruct ev; try lia.
    apply Nat.eqb_eq in Hgate.
    destruct (Nat.leb_spec MAX_SESSIONS (getSessionCount (state c))); [lia|].
    unfold committed in *. lia.
Qed.

(** X4.  When no [openSession] is called while another is still in
    flight, the table never holds more than [MAX_SESSIONS] sessions,
    whatever else is interleaved (lookups, closes, ticks, disconnects,
    [closeAllSessions]); in particular the sixth of six successive opens
    is rejected, as the repository's test expects. *)
Theorem serial_opens_respect_capacity :
  forall evs c,
    opens_serial evs initial = true ->
    run evs initial = Some c ->
    getSessionCount (state c) <= MAX_SESSIONS /\
    getSessionCount (state c) + opens_in_flight (pool c) <= MAX_SESSIONS.
Proof.
  intros evs c Hser Hrun.
  assert (H : committed c <= MAX_SESSIONS).
  { apply (serial_committed evs initial c); auto. vm_compute. lia. }
  unfold committed in H. split; lia.
Qed.

Lemma serial_opens_respect_capacity_witness :
  match run (five_opens ++ [(mkEnv 1 "s6", CallOpen "key" None)]) initial with
  | Some c => getSessionCount (state c) <= MAX_SESSIONS
  | None => False
  end.
Proof.
  assert (Hrun : run (five_opens ++ [(mkEnv 1 "s6", CallOpen "key" None)]) initial =
                 Some (run_or_initial
                         (five_opens ++ [(mkEnv 1 "s6", CallOpen "key" None)])))
    by (vm_compute; reflexivity).
  rewrite Hrun.
  apply (serial_opens_respect_capacity
           (five_opens ++ [(mkEnv 1 "s6", CallOpen "key" None)])
           (run_or_initial (five_opens ++ [(mkEnv 1 "s6", CallOpen "key" None)]))).
  - vm_compute. reflexivity.
  - exact Hrun.
Defined.

(** ** The disconnect listener *)

(** Every live session has its listener: the pair of its browser and
    its id is registered. *)
Definition listeners_cover (st : State) : Prop :=
  wf_state st /\
  forall id s,
    JsMap.get (sessions st) id = Some s -> In (bid (browser s), id) (listeners st).

Lemma get_delete_Some {V : Type} (m : JsMap.t V) k id v :
  JsMap.wf m -> JsMap.get (JsMap.delete m k) id = Some v -> JsMap.get m id = Some v.
Proof.
  intros Hwf H. destruct (string_dec id k) as [->|Hne].
  - rewrite JsMap.get_delete_eq in H by assumption. discriminate.
  - now rewrite JsMap.get_delete_ne in H.
Qed.

Lemma step_listeners_cover env ev c c' :
  listeners_cover (state c) -> step env ev c = Some c' -> listeners_cover (state c').
Proof.
  intros H Hs.
  assert (Hdel : forall st id, listeners_cover st ->
            listeners_cover (with_sessions (JsMap.delete (sessions st) id) st)).
  { intros st id [Hwf Hc]. split.
    - unfold wf_state. simpl. now apply JsMap.wf_delete.
    - simpl. intros id' s Hg. apply Hc. eapply get_delete_Some; eassumption. }
  refine (inv_step listeners_cover (fun _ => True) True _ _ _ _ _ _ _
            env ev c c' H I (or_introl I) Hs);
    clear - Hdel; intros.
  - destruct H as [Hwf Hc]. split.
    + unfold wf_state. rewrite sessions_openSession_finish. now apply JsMap.wf_set.
    + intros id' s. rewrite sessions_openSession_finish.
      unfold openSession_finish, startCleanup. simpl.
      destruct (string_dec id' id) as [->|Hne].
      * rewrite JsMap.get_set_eq. intros E. injection E as <-. simpl.
        destruct (cleanupTimer st); simpl; apply in_or_app; right; now left.
      * rewrite JsMap.get_set_ne by assumption. intros Hg.
        destruct (cleanupTimer st); simpl; apply in_or_app; left; now apply Hc.
  - destruct H as [Hwf Hc]. unfold getPage.
    destruct (JsMap.get (sessions st) id) as [s0|] eqn:E; simpl; [|now split].
    split.
    + unfold wf_state. simpl. now apply JsMap.wf_set.
    + simpl. intros id' s. destruct (string_dec id' id) as [->|Hne].
      * rewrite JsMap.get_set_eq. intros E'. injection E' as <-. simpl. now apply Hc.
      * rewrite JsMap.get_set_ne by assumption. apply Hc.
  - unfold closeSession. destruct (JsMap.get (sessions st) id) eqn:E; simpl; [|assumption].
    apply (Hdel st id H).
  - now apply Hdel.
  - assumption.
  - assumption.
  - unfold closeAllSessions_finish. now destruct (cleanupTimer st).
Qed.

Lemma run_listeners_frame b ls : forall st,
  closeCalls (run_listeners b ls st) = closeCalls st /\
  cleanupTimer (run_listeners b ls st) = cleanupTimer st /\
  intervals (run_listeners b ls st) = intervals st /\
  listeners (run_listeners b ls st) = listeners st.
Proof.
  induction ls as [|[b' id] ls IH]; intros st; simpl; [auto|].
  destruct (IH (if b' =? b
                then with_sessions (JsMap.delete (sessions st) id) st
                else st)) as [H1 [H2 [H3 H4]]].
  rewrite H1, H2, H3, H4. now destruct (b' =? b).
Qed.

Lemma run_listeners_absent b id ls : forall st,
  JsMap.get (sessions st) id = None ->
  JsMap.get (sessions (run_listeners b ls st)) id = None.
Proof.
  induction ls as [|[b' id'] ls IH]; intros st H; simpl; [assumption|].
  apply IH. destruct (b' =? b); [|assumption].
  simpl. now apply JsMap.get_delete_None.
Qed.

Lemma run_listeners_deletes b id ls : forall st,
  wf_state st -> In (b, id) ls ->
  JsMap.get (sessions (run_listeners b ls st)) id = None.
Proof.
  induction ls as [|[b' id'] ls IH]; intros st Hwf Hin; simpl; [contradiction|].
  destruct Hin as [E|Hin].
  - injection E as -> ->. rewrite Nat.eqb_refl.
    apply run_listeners_absent. simpl. now apply JsMap.get_delete_eq.
  - apply IH; [|assumption].
    destruct (b' =? b); [|assumption].
    unfold wf_state. simpl. now apply JsMap.wf_delete.
Qed.

Lemma run_listeners_none b ls : forall st,
  (forall id, ~ In (b, id) ls) -> run_listeners b ls st = st.
Proof.
  induction ls as [|[b' id'] ls IH]; intros st Hn; simpl; [reflexivity|].
  destruct (Nat.eqb_spec b' b) as [->|Hne].
  - exfalso. apply (Hn id'). now left.
  - apply IH. intros id Hin. apply (Hn id). now right.
Qed.

(** X5.  In every run from the initial state, when the browser of a
    live session emits ["disconnected"], the listener registered by
    [openSession] removes that session's record at once: a lookup of the
    id then fails and the count has dropped.  The listener calls no
    [close()] and leaves the timer alone.  A disconnect of a browser for
    which no listener is registered changes nothing. *)
Theorem disconnect_removes_session :
  forall evs c id s b',
    run evs initial = Some c ->
    JsMap.get (sessions (state c)) id = Some s ->
    JsMap.get (sessions (emit_disconnected (bid (browser s)) (state c))) id = None /\
    getSessionCount (emit_disconnected (bid (browser s)) (state c)) <
      getSessionCount (state c) /\
    closeCalls (emit_disconnected (bid (browser s)) (state c)) = closeCalls (state c) /\
    cleanupTimer (emit_disconnected (bid (browser s)) (state c)) =
      cleanupTimer (state c) /\
    ((exists id', In (b', id') (listeners (state c))) \/
     emit_disconnected b' (state c) = state c).
Proof.
  intros evs c id s b' Hrun Hget.
  assert (Hcov : listeners_cover (state c)).
  { apply (run_invariant (fun c => listeners_cover (state c)) (fun _ => True))
      with (evs := evs) (c := initial); auto.
    - intros. eapply step_listeners_cover; eassumption.
    - split; [apply JsMap.wf_empty | intros ? ? E; discriminate].
    - clear. induction evs; constructor; auto. }
  destruct Hcov as [Hwf Hc]. unfold emit_disconnected.
  pose proof (run_listeners_deletes (bid (browser s)) id (listeners (state c))
                (state c) Hwf (Hc id s Hget)) as Hgone.
  destruct (run_listeners_frame (bid (browser s)) (listeners (state c)) (state c))
    as [H1 [H2 _]].
  split; [exact Hgone|]. split; [|split; [exact H1|split; [exact H2|]]].
  - (* the count drops: the table after is the table before with records removed *)
    assert (Hmono : forall ls st,
      JsMap.get (sessions st) id = Some s ->
      JsMap.get (sessions (run_listeners (bid (browser s)) ls st)) id = None ->
      getSessionCount (run_listeners (bid (browser s)) ls st) < getSessionCount st).
    { clear. induction ls as [|[b0 id0] ls IH]; intros st Hg Hn; simpl in *.
      - congruence.
      - destruct (b0 =? bid (browser s)); [|now apply IH].
        destruct (string_dec id0 id) as [->|Hne].
        + pose proof (count_run_listeners (bid (browser s)) ls
                        (with_sessions (JsMap.delete (sessions st) id) st)) as Hle.
          pose proof (@JsMap.size_delete_present _ _ _ _ Hg) as Hd.
          unfold getSessionCount in *. simpl in *. lia.
        + assert (Hg' : JsMap.get (JsMap.delete (sessions st) id0) id = Some s)
            by now rewrite JsMap.get_delete_ne.
          specialize (IH (with_sessions (JsMap.delete (sessions st) id0) st) Hg' Hn).
          pose proof (JsMap.size_delete_le (sessions st) id0).
          unfold getSessionCount in *. simpl in *. lia. }
    now apply Hmono.
  - destruct (in_dec Nat.eq_dec b' (map fst (listeners (state c)))) as [Hin|Hnin].
    + left. apply in_map_iff in Hin as [[b0 id0] [E Hin]]. simpl in E. subst.
      now exists id0.
    + right. apply run_listeners_none. intros id0 Hin. apply Hnin.
      apply in_map_iff. now exists (b', id0).
Qed.

Definition two_sessions : Config :=
  run_or_initial (open_alone 0 0 "s1" None ++ open_alone 1 1 "s2" None).

Lemma disconnect_removes_session_witness :
  JsMap.get (sessions (emit_disconnected 1 (state two_sessions))) "s2" = None /\
  getSessionCount (emit_disconnected 1 (state two_sessions)) <
    getSessionCount (state two_sessions) /\
  closeCalls (emit_disconnected 1 (state two_sessions)) = closeCalls (state two_sessions).
Proof.
  assert (Hrun : run (open_alone 0 0 "s1" None ++ open_alone 1 1 "s2" None) initial =
                 Some two_sessions) by (vm_compute; reflexivity).
  destruct (disconnect_removes_session
              (open_alone 0 0 "s1" None ++ open_alone 1 1 "s2" None)
              two_sessions "s2" (mkSession (mkBrowser 1 false) 0 1) 7 Hrun)
    as [H1 [H2 [H3 _]]].
  - vm_compute. reflexivity.
  - exact (conj H1 (conj H2 H3)).
Defined.

(** ** A connect that succeeds in a call that then fails *)

(** A browser that nothing holds is never picked up again. *)
Lemma run_never_held n evs : forall c c',
  held n c = 0 -> n < nextBrowser (state c) ->
  run evs c = Some c' ->
  held n c' = 0 /\ n < nextBrowser (state c').
Proof.
  induction evs as [|[env ev] evs IH]; intros c c' H0 Hlt Hrun; simpl in Hrun.
  - injection Hrun as <-. now split.
  - destruct (step env ev c) as [c1|] eqn:Es; [|discriminate].
    apply (IH c1 c'); auto.
    + destruct (step_held env ev c c1 Es) as [[_ Hle]|[_ Heq]].
      * specialize (Hle n). lia.
      * rewrite (Heq n), H0. unfold one_if.
        destruct (Nat.eq_dec (nextBrowser (state c)) n); [lia | reflexivity].
    + destruct (step_held env ev c c1 Es) as [[-> _]|[-> _]]; lia.
Qed.

(** X6.  When [browser.pages()] or [browser.newPage()] rejects after
    [puppeteer.connect] succeeded, [openSession] rejects with that error
    and the state is left as it was: the connected browser is not stored
    and its [close()] is not called.  Nor is it ever called later: in
    every continuation of the run that browser is absent from the table
    and from the log of [close()] calls, so the manager never tears the
    connection down. *)
Theorem failed_pages_leaves_browser_open :
  forall evs c k options b e env evs' c2,
    run evs initial = Some c ->
    nth_error (pool c) k = Some (Some (OpenListingPages options b)) \/
    nth_error (pool c) k = Some (Some (OpenCreatingPage options b)) ->
    run ((env, Resume k (VError e)) :: evs') c = Some c2 ->
    (exists c1,
       step env (Resume k (VError e)) c = Some c1 /\
       outs c1 = outs c ++ [OpenRejected e] /\
       state c1 = state c) /\
    ~ In (bid b) (closeCalls (state c2)) /\
    (forall s, In s (JsMap.values (sessions (state c2))) -> bid (browser s) <> bid b).
Proof.
  intros evs c k options b e env evs' c2 Hrun Hk Hrun2.
  pose proof (run_owned_once evs initial c owned_once_initial Hrun (bid b)) as [Hle Hfresh].
  assert (Hstep : step env (Resume k (VError e)) c =
                  Some (emit (OpenRejected e) (retire k c))).
  { simpl. destruct Hk as [Hk|Hk]; now rewrite Hk. }
  assert (Hheld : held (bid b) c >= 1 /\
                  held (bid b) (emit (OpenRejected e) (retire k c)) = 0).
  { destruct Hk as [Hk|Hk];
      pose proof (held_update (bid b) c k _ None (state c) Hk) as Hu;
      pose proof (cnt_pool_update (bid b) (pool c) k _ None Hk) as Hp;
      simpl in Hu, Hp; rewrite cnt_cons, !cnt_nil in Hu, Hp;
      unfold one_if in Hu, Hp;
      (destruct (Nat.eq_dec (bid b) (bid b)) as [_|]; [|contradiction]);
      unfold held in *; simpl in *; lia. }
  destruct Hheld as [Hheld Hzero].
  assert (Hlt : bid b < nextBrowser (state c)).
  { destruct (Nat.lt_ge_cases (bid b) (nextBrowser (state c))) as [|Hge]; [assumption|].
    specialize (Hfresh Hge). lia. }
  split.
  - eexists. split; [exact Hstep|]. now split.
  - cbn [run] in Hrun2. rewrite Hstep in Hrun2.
    destruct (run_never_held (bid b) evs' _ c2 Hzero Hlt Hrun2) as [Hz _].
    unfold held, held_in_state in Hz.
    assert (Ht : cnt (bid b) (table_browsers (sessions (state c2))) = 0) by lia.
    assert (Hc : cnt (bid b) (closeCalls (state c2)) = 0) by lia.
    split.
    + intros Hin. apply (count_occ_In Nat.eq_dec) in Hin. unfold cnt in Hc. lia.
    + intros s Hin Heq.
      assert (Hin' : In (bid b) (table_browsers (sessions (state c2)))).
      { unfold table_browsers. apply in_map_iff. exists s. now split. }
      apply (count_occ_In Nat.eq_dec) in Hin'. unfold cnt in Ht. lia.
Qed.

(** An open whose connect succeeded and whose [browser.pages()] is
    pending. *)
Definition listing_pages : list (Env * Event) :=
  [ (mkEnv 0 "", CallOpen "key" None);
    (mkEnv 1 "", Resume 0 (VBrowser false)) ].

Definition after_failed_pages : list (Env * Event) :=
  [ (mkEnv 3 "", CallCloseAll);
    (mkEnv 4 "", Resume 1 VDone);
    (mkEnv 400000 "s1", CallGetPage "s1") ].

Lemma failed_pages_leaves_browser_open_witness :
  closeCalls
    (state (run_or_initial
              (listing_pages ++
               (mkEnv 2 "", Resume 0 (VError (Error "Target closed"))) ::
               after_failed_pages))) = [] /\
  ~ In 0 (closeCalls
            (state (run_or_initial
                      (listing_pages ++
                       (mkEnv 2 "", Resume 0 (VError (Error "Target closed"))) ::
                       after_failed_pages)))).
Proof.
  split; [vm_compute; reflexivity|].
  apply (failed_pages_leaves_browser_open listing_pages
           (run_or_initial listing_pages) 0 None (mkBrowser 0 false)
           (Error "Target closed") (mkEnv 2 "") after_failed_pages
           (run_or_initial
              (listing_pages ++
               (mkEnv 2 "", Resume 0 (VError (Error "Target closed"))) ::
               after_failed_pages))).
  - vm_compute. reflexivity.
  - left. vm_compute. reflexivity.
  - vm_compute. reflexivity.
Defined.

(** ** Teardown failures never surface *)

(** X7.  [closeSession] on a live id always resolves and always removes
    the record, however the teardown goes: when [close()] raises at the
    call the function returns at once; otherwise it waits for the
    teardown promise and resolves whether that promise resolves or
    rejects.  In every case [close()] was invoked exactly once on the
    session's browser. *)
Theorem closeSession_swallows_teardown_errors :
  forall env env' c id s v,
    wf_state (state c) ->
    JsMap.get (sessions (state c)) id = Some s ->
    v = VDone \/ (exists e, v = VError e) ->
    exists c',
      run (if closeThrows (browser s)
           then [(env, CallClose id)]
           else [(env, CallClose id); (env', Resume (List.length (pool c)) v)]) c
        = Some c' /\
      outs c' = outs c ++ [CloseResolved] /\
      JsMap.get (sessions (state c')) id = None /\
      getSessionCount (state c') + 1 = getSessionCount (state c) /\
      closeCalls (state c') = closeCalls (state c) ++ [bid (browser s)].
Proof.
  intros env env' c id s v Hwf Hget Hv.
  pose proof (closeSession_present (state c) id s Hget) as Hcs.
  pose proof (@JsMap.size_delete_present _ _ _ _ Hget) as Hsize.
  assert (Hgone : JsMap.get (JsMap.delete (sessions (state c)) id) id = None)
    by now apply JsMap.get_delete_eq.
  destruct (closeThrows (browser s)) eqn:Et; simpl in Hcs.
  - eexists. split.
    + cbn [run step]. rewrite Hcs. reflexivity.
    + simpl. unfold getSessionCount. simpl. repeat split; auto. lia.
  - eexists. split.
    + cbn [run step]. rewrite Hcs. cbn [run step].
      cbn [spawn with_state pool]. rewrite nth_error_spawned. cbn [resume].
      destruct Hv as [->|[e ->]]; reflexivity.
    + simpl. unfold getSessionCount. simpl. repeat split; auto. lia.
Qed.

Lemma closeSession_swallows_teardown_errors_witness :
  exists c',
    run [(mkEnv 1 "", CallClose "s1");
         (mkEnv 2 "", Resume 1 (VError (Error "Protocol error")))] one_session
      = Some c' /\
    outs c' = outs one_session ++ [CloseResolved] /\
    JsMap.get (sessions (state c')) "s1" = None.
Proof.
  destruct (closeSession_swallows_teardown_errors (mkEnv 1 "") (mkEnv 2 "")
              one_session "s1" (mkSession (mkBrowser 0 false) 0 0)
              (VError (Error "Protocol error")))
    as [c' [H1 [H2 [H3 _]]]].
  - vm_compute. repeat constructor. simpl. tauto.
  - vm_compute. reflexivity.
  - right. exists (Error "Protocol error"). reflexivity.
  - exists c'. exact (conj H1 (conj H2 H3)).
Defined.

(** ** Open, then look up *)

(** X8.  An [openSession] admitted below the limit and run alone
    resolves with the id drawn from [crypto.randomUUID()], and a
    [getPage] on that id then returns the page the session was opened
    with: the first page the browser already had, or, when it had none,
    the page made by [browser.newPage()]. *)
Theorem open_then_getPage :
  forall env1 env2 env3 env4 env5 apiKey options throws pages fresh_page c,
    getSessionCount (state c) < MAX_SESSIONS ->
    exists c',
      run ([ (env1, CallOpen apiKey options);
             (env2, Resume (List.length (pool c)) (VBrowser throws));
             (env3, Resume (List.length (pool c)) (VPages pages)) ] ++
           match pages with
           | [] => [(env4, Resume (List.length (pool c)) (VPage fresh_page))]
           | _ :: _ => []
           end) c = Some c' /\
      let id := match pages with [] => uuid env4 | _ :: _ => uuid env3 end in
      let p := match pages with [] => fresh_page | p :: _ => p end in
      outs c' = outs c ++ [OpenResolved (mkOpenResult id (resolved_browserType options))] /\
      snd (getPage (state c') id (clock env5)) = inr p /\
      step env5 (CallGetPage id) c' =
        Some (emit (PageReturned p)
                (with_state (fst (getPage (state c') id (clock env5))) c')).
Proof.
  intros env1 env2 env3 env4 env5 apiKey options throws pages fresh_page c Hroom.
  assert (Henter : openSession_enter (state c) = None).
  { unfold openSession_enter.
    destruct (Nat.leb_spec MAX_SESSIONS (getSessionCount (state c))); [lia | reflexivity]. }
  set (k := List.length (pool c)).
  set (b := fst (new_browser throws (state c))).
  set (c1 := spawn (OpenConnecting apiKey options) c).
  set (c2 := suspend k (OpenListingPages options b)
               (with_state (snd (new_browser throws (state c))) c1)).
  set (c3 := suspend k (OpenCreatingPage options b) c2).
  assert (Hk1 : nth_error (pool c1) k = Some (Some (OpenConnecting apiKey options)))
    by apply nth_error_spawned.
  assert (Hk2 : nth_error (pool c2) k = Some (Some (OpenListingPages options b)))
    by (simpl; eapply nth_error_update_eq; exact Hk1).
  assert (Hk3 : nth_error (pool c3) k = Some (Some (OpenCreatingPage options b)))
    by (simpl; eapply nth_error_update_eq; exact Hk2).
  assert (S1 : step env1 (CallOpen apiKey options) c = Some c1)
    by (simpl; now rewrite Henter).
  assert (S2 : step env2 (Resume k (VBrowser throws)) c1 = Some c2)
    by (cbn [step]; rewrite Hk1; reflexivity).
  assert (Hfin : forall env p c0,
    nth_error (pool c0) k = Some (Some (OpenListingPages options b)) \/
    nth_error (pool c0) k = Some (Some (OpenCreatingPage options b)) ->
    outs (finish_open env k options b p c0) =
      outs c0 ++ [OpenResolved (mkOpenResult (uuid env) (resolved_browserType options))] /\
    snd (getPage (state (finish_open env k options b p c0)) (uuid env) (clock env5)) = inr p).
  { intros env p c0 _. unfold finish_open. simpl. split; [reflexivity|].
    unfold getPage. simpl. rewrite sessions_startCleanup. simpl.
    now rewrite JsMap.get_set_eq. }
  assert (Hget : forall c0 id p,
    snd (getPage (state c0) id (clock env5)) = inr p ->
    step env5 (CallGetPage id) c0 =
      Some (emit (PageReturned p)
              (with_state (fst (getPage (state c0) id (clock env5))) c0))).
  { intros c0 id p H. cbn [step].
    destruct (getPage (state c0) id (clock env5)) as [st' [e|p']]; simpl in H;
      [discriminate | now injection H as ->]. }
  destruct pages as [|p ps].
  - assert (S3 : step env3 (Resume k (VPages [])) c2 = Some c3)
      by (cbn [step]; rewrite Hk2; reflexivity).
    assert (S4 : step env4 (Resume k (VPage fresh_page)) c3 =
                 Some (finish_open env4 k options b fresh_page c3))
      by (cbn [step]; rewrite Hk3; reflexivity).
    exists (finish_open env4 k options b fresh_page c3).
    destruct (Hfin env4 fresh_page c3 (or_intror Hk3)) as [Ho Hl].
    split; [cbn [app run]; now rewrite S1, S2, S3, S4|].
    cbn zeta. split; [exact Ho|]. split; [exact Hl | now apply Hget].
  - assert (S3 : step env3 (Resume k (VPages (p :: ps))) c2 =
                 Some (finish_open env3 k options b p c2))
      by (cbn [step]; rewrite Hk2; reflexivity).
    exists (finish_open env3 k options b p c2).
    destruct (Hfin env3 p c2 (or_introl Hk2)) as [Ho Hl].
    split; [cbn [app run]; now rewrite S1, S2, S3|].
    cbn zeta. split; [exact Ho|]. split; [exact Hl | now apply Hget].
Qed.

Lemma open_then_getPage_witness :
  exists c',
    run [ (mkEnv 0 "", CallOpen "key" None);
          (mkEnv 1 "", Resume 0 (VBrowser false));
          (mkEnv 2 "", Resume 0 (VPages []));
          (mkEnv 3 "s1", Resume 0 (VPage 9)) ] initial = Some c' /\
    outs c' = [OpenResolved (mkOpenResult "s1" "chrome")] /\
    snd (getPage (state c') "s1" 4) = inr 9.
Proof.
  destruct (open_then_getPage (mkEnv 0 "") (mkEnv 1 "") (mkEnv 2 "") (mkEnv 3 "s1")
              (mkEnv 4 "") "key" None false [] 9 initial)
    as [c' [H1 [H2 [H3 _]]]].
  - vm_compute. lia.
  - exists c'. exact (conj H1 (conj H2 H3)).
Defined.

(** ** The connection parameters of [openSession] *)

(** [URLSearchParams]: an ordered list of name/value pairs.  [set]
    overwrites the first pair with the name and drops the others, or
    appends a new pair; [get] returns the first value. *)
Module SearchParams.

Definition t : Type := list (string * string).

Fixpoint get (ps : t) (name : string) : option string :=
  match ps with
  | [] => None
  | (n, v) :: ps' => if String.eqb n name then Some v else get ps' name
  end.

Fixpoint remove_all (ps : t) (name : string) : t :=
  match ps with
  | [] => []
  | (n, v) :: ps' =>
      if String.eqb n name then remove_all ps' name
      else (n, v) :: remove_all ps' name
  end.

Fixpoint set (ps : t) (name value : string) : t :=
  match ps with
  | [] => [(name, value)]
  | (n, v) :: ps' =>
      if String.eqb n name then (n, value) :: remove_all ps' name
      else (n, v) :: set ps' name value
  end.

Definition names (ps : t) : list string := map fst ps.

Lemma get_remove_all ps name : get (remove_all ps name) name = None.
Proof.
  induction ps as [|[n v] ps IH]; simpl; [reflexivity|].
  destruct (String.eqb n name) eqn:E; simpl; [assumption|]. now rewrite E.
Qed.

Lemma get_remove_all_ne ps name other :
  other <> name -> get (remove_all ps name) other = get ps other.
Proof.
  intros Hne. induction ps as [|[n v] ps IH]; simpl; [reflexivity|].
  destruct (String.eqb_spec n name) as [->|Hn]; simpl.
  - destruct (String.eqb_spec name other); [congruence | assumption].
  - now rewrite IH.
Qed.

Lemma params_get_set_eq ps name value : get (set ps name value) name = Some value.
Proof.
  induction ps as [|[n v] ps IH]; simpl.
  - now rewrite String.eqb_refl.
  - destruct (String.eqb n name) eqn:E; simpl; now rewrite E.
Qed.

Lemma params_get_set_ne ps name value other :
  other <> name -> get (set ps name value) other = get ps other.
Proof.
  intros Hne. induction ps as [|[n v] ps IH]; simpl.
  - destruct (String.eqb_spec name other); congruence.
  - destruct (String.eqb_spec n name) as [->|Hn]; simpl.
    + destruct (String.eqb_spec name other); [congruence|].
      now apply get_remove_all_ne.
    + now rewrite IH.
Qed.

Lemma names_remove_all ps name x :
  In x (names (remove_all ps name)) -> In x (names ps) /\ x <> name.
Proof.
  induction ps as [|[n v] ps IH]; simpl; [tauto|].
  destruct (String.eqb_spec n name) as [->|Hn]; simpl.
  - intros H. destruct (IH H). tauto.
  - intros [<-|H]; [tauto|]. destruct (IH H). tauto.
Qed.

Lemma NoDup_remove_all ps name :
  NoDup (names ps) -> NoDup (names (remove_all ps name)).
Proof.
  induction ps as [|[n v] ps IH]; simpl; intros H; [constructor|].
  inversion H as [|? ? Hnin Hnd]; subst.
  destruct (String.eqb n name); simpl; [auto|].
  constructor; [|auto]. intros Hin. apply names_remove_all in Hin. tauto.
Qed.

Lemma names_set ps name value x :
  In x (names (set ps name value)) -> In x (names ps) \/ x = name.
Proof.
  induction ps as [|[n v] ps IH]; simpl.
  - intros [<-|[]]. now right.
  - destruct (String.eqb_spec n name) as [->|Hn]; simpl.
    + intros [<-|H]; [tauto|]. apply names_remove_all in H. tauto.
    + intros [<-|H]; [tauto|]. destruct (IH H); tauto.
Qed.

(** [set] never leaves a name twice. *)
Lemma NoDup_set ps name value :
  NoDup (names ps) -> NoDup (names (set ps name value)).
Proof.
  induction ps as [|[n v] ps IH]; simpl; intros H.
  - repeat constructor. simpl. tauto.
  - inversion H as [|? ? Hnin Hnd]; subst.
    destruct (String.eqb_spec n name) as [->|Hn]; simpl.
    + constructor; [|now apply NoDup_remove_all].
      intros Hin. apply names_remove_all in Hin. tauto.
    + constructor; [|auto]. intros Hin. apply names_set in Hin as [Hin|E]; congruence.
Qed.

End SearchParams.

(** A JS string is truthy when it is not empty. *)
Definition truthy (s : option string) : option string :=
  match s with
  | Some EmptyString => None
  | other => other
  end.

Section ConnectParams.

(** [String(n)] for the [stealth] number. *)
Variable number_to_string : Z -> string.

(** [options?.field] *)
Definition option_field {A : Type} (f : Options -> option A)
    (options : option Options) : option A :=
  match options with
  | Some o => f o
  | None => None
  end.

(** Lines 67-71 of [openSession]: the query parameters of the WebSocket
    endpoint. *)
Definition connect_params (apiKey : string) (options : option Options)
    : SearchParams.t :=
  let params := [("token"%string, apiKey)] in
  let params :=
    match truthy (option_field opt_browser options) with
    | Some b => SearchParams.set params "browser" b
    | None => params
    end in
  let params :=
    match option_field opt_stealth options with
    | Some n => SearchParams.set params "s" (number_to_string n)
    | None => params
    end in
  let params :=
    match truthy (option_field opt_country options) with
    | Some country => SearchParams.set params "country" country
    | None => params
    end in
  match truthy (option_field opt_mode options) with
  | Some mode => SearchParams.set params "mode" mode
  | None => params
  end.

(** X9.  The connection parameters of [openSession] always carry the
    API key under [token]; [browser], [country] and [mode] are passed
    exactly when given and not the empty string; the stealth level is
    passed under [s] whenever it is given, the level 0 included; and no
    parameter name occurs twice. *)
Theorem connect_params_spec :
  forall apiKey options,
    SearchParams.get (connect_params apiKey options) "token" = Some apiKey /\
    SearchParams.get (connect_params apiKey options) "browser" =
      truthy (option_field opt_browser options) /\
    SearchParams.get (connect_params apiKey options) "s" =
      option_map number_to_string (option_field opt_stealth options) /\
    SearchParams.get (connect_params apiKey options) "country" =
      truthy (option_field opt_country options) /\
    SearchParams.get (connect_params apiKey options) "mode" =
      truthy (option_field opt_mode options) /\
    NoDup (SearchParams.names (connect_params apiKey options)) /\
    incl (SearchParams.names (connect_params apiKey options))
         ["token"; "browser"; "s"; "country"; "mode"]%string.
Proof.
  intros apiKey [[[[|cb sb]|] [n|] [[|cc sc]|] [[|cm sm]|]]|];
    cbv [connect_params truthy option_field option_map
         opt_browser opt_stealth opt_country opt_mode];
    (split; [reflexivity|]); (split; [reflexivity|]); (split; [reflexivity|]);
    (split; [reflexivity|]); (split; [reflexivity|]);
    (split;
     [ repeat apply SearchParams.NoDup_set; repeat constructor; simpl; tauto
     | intros name Hin;
       repeat (apply SearchParams.names_set in Hin as [Hin|Hin]);
       simpl in *; intuition (subst; tauto) ]).
Qed.

End ConnectParams.

(** * The spider-browser build: [getPage] and [getBrowser] *)

(** In the build on the spider-browser SDK a session holds the
    [SpiderBrowser] and its timestamp; the page is read off the browser
    at each lookup ([session.browser.page]). *)
Module SpiderBrowserManager.
Section Lookups.

Variable SpiderBrowser : Type.
Variable SpiderPage : Type.
(** [browser.page] *)
Variable page_of : SpiderBrowser -> SpiderPage.

Record Session : Type := mkSession {
  browser : SpiderBrowser;
  lastAccess : Z
}.

Definition getPage (sessions : JsMap.t Session) (sessionId : string) (now : Z)
    : JsMap.t Session * (exn + SpiderPage) :=
  match JsMap.get sessions sessionId with
  | None => (sessions, inl (Error not_found_message))
  | Some session =>
      (JsMap.set sessions sessionId (mkSession (browser session) now),
       inr (page_of (browser session)))
  end.

Definition getBrowser (sessions : JsMap.t Session) (sessionId : string) (now : Z)
    : JsMap.t Session * (exn + SpiderBrowser) :=
  match JsMap.get sessions sessionId with
  | None => (sessions, inl (Error not_found_message))
  | Some session =>
      (JsMap.set sessions sessionId (mkSession (browser session) now),
       inr (browser session))
  end.

(** X10.  [getBrowser] and [getPage] share one contract: they fail on
    the same ids with the same error and leave the table untouched when
    they fail; on success they make the same change to the table
    (refreshing [lastAccess] of that session only), and the page
    [getPage] returns is the page of the browser [getBrowser] returns.
    Either lookup keeps the session reachable by the other, with the
    same browser. *)
Theorem getBrowser_getPage_agree :
  forall sessions id now later,
    fst (getPage sessions id now) = fst (getBrowser sessions id now) /\
    snd (getPage sessions id now) =
      match snd (getBrowser sessions id now) with
      | inl e => inl e
      | inr b => inr (page_of b)
      end /\
    (JsMap.get sessions id = None ->
       getBrowser sessions id now = (sessions, inl (Error not_found_message))) /\
    (forall b, snd (getBrowser sessions id now) = inr b ->
       JsMap.get (fst (getBrowser sessions id now)) id = Some (mkSession b now) /\
       JsMap.size (fst (getBrowser sessions id now)) = JsMap.size sessions /\
       snd (getPage (fst (getBrowser sessions id now)) id later) = inr (page_of b) /\
       snd (getBrowser (fst (getPage sessions id now)) id later) = inr b) /\
    (forall id', id' <> id ->
       JsMap.get (fst (getBrowser sessions id now)) id' = JsMap.get sessions id').
Proof.
  intros sessions id now later. unfold getPage, getBrowser.
  destruct (JsMap.get sessions id) as [s|] eqn:E; simpl.
  - repeat split; try reflexivity; try discriminate.
    + injection H as <-. apply JsMap.get_set_eq.
    + eapply JsMap.size_set_present; eassumption.
    + injection H as <-. now rewrite JsMap.get_set_eq.
    + injection H as <-. now rewrite JsMap.get_set_eq.
    + intros id' Hne. now apply JsMap.get_set_ne.
  - repeat split; try reflexivity; try discriminate.
Qed.

End Lookups.

Arguments mkSession {SpiderBrowser} browser lastAccess.
Arguments getPage {SpiderBrowser SpiderPage} page_of sessions sessionId now.
Arguments getBrowser {SpiderBrowser} sessions sessionId now.

End SpiderBrowserManager.

(** * The REST client (api.ts): [formatResult] *)

Module Api.

#[warnings="-abstract-large-number"]
Definition MAX_CONTENT_LENGTH : nat := 200000.

Definition newline : string := String (ascii_of_nat 10) EmptyString.

Definition truncation_notice : string :=
  String.append newline
    (String.append newline
       "[Response truncated at 200K characters. Use the `limit` parameter to reduce result size.]").

(** [text.slice(0, n)] *)
Definition slice0 (n : nat) (text : string) : string := substring 0 n text.

(** The body of [formatResult] once [text] is known. *)
Definition clip (text : string) : string :=
  if MAX_CONTENT_LENGTH <? String.length text
  then String.append (slice0 MAX_CONTENT_LENGTH text) truncation_notice
  else text.

Section FormatResult.

(** The values other than strings, and [JSON.stringify(data, null, 2)]
    on them. *)
Variable Json : Type.
Variable stringify : Json -> string.

Definition text_of (data : string + Json) : string :=
  match data with
  | inl s => s
  | inr j => stringify j
  end.

Definition formatResult (data : string + Json) : string :=
  clip (text_of data).

End FormatResult.

Arguments text_of {Json} stringify data.
Arguments formatResult {Json} stringify data.

Lemma length_append a b :
  String.length (String.append a b) = String.length a + String.length b.
Proof. induction a as [|ch a IH]; simpl; congruence. Qed.

Lemma length_slice0 n : forall s,
  String.length (slice0 n s) = Nat.min n (String.length s).
Proof.
  unfold slice0. induction n as [|n IH]; intros [|ch s]; simpl; auto.
Qed.

Lemma slice0_all n : forall s, String.length s <= n -> slice0 n s = s.
Proof.
  unfold slice0. induction n as [|n IH]; intros [|ch s] H; simpl in *; auto.
  - lia.
  - f_equal. apply IH. lia.
Qed.

Lemma slice0_append n : forall a b,
  n <= String.length a -> slice0 n (String.append a b) = slice0 n a.
Proof.
  unfold slice0. induction n as [|n IH]; intros [|ch a] b H; simpl in *; auto.
  - now destruct b.
  - lia.
  - f_equal. apply IH. lia.
Qed.

Lemma slice0_slice0 n s : slice0 n (slice0 n s) = slice0 n s.
Proof.
  apply slice0_all. rewrite length_slice0. lia.
Qed.

(** The truncation, for any limit in place of [MAX_CONTENT_LENGTH]. *)
Section Clip.
Variable limit : nat.

Definition clip_at (text : string) : string :=
  if limit <? String.length text
  then String.append (slice0 limit text) truncation_notice
  else text.

Lemma clip_at_length text :
  String.length (clip_at text) =
  if limit <? String.length text
  then limit + String.length truncation_notice
  else String.length text.
Proof.
  unfold clip_at. destruct (Nat.ltb_spec limit (String.length text)); [|reflexivity].
  rewrite length_append, length_slice0. lia.
Qed.

Lemma clip_at_prefix text : slice0 limit (clip_at text) = slice0 limit text.
Proof.
  unfold clip_at. destruct (Nat.ltb_spec limit (String.length text)); [|reflexivity].
  rewrite slice0_append; [apply slice0_slice0|]. rewrite length_slice0. lia.
Qed.

Lemma clip_at_idempotent text : clip_at (clip_at text) = clip_at text.
Proof.
  pose proof (clip_at_length text) as Hlen.
  pose proof (clip_at_prefix text) as Hpre.
  unfold clip_at in *.
  destruct (Nat.ltb_spec limit (String.length text)) as [Hlong|Hshort].
  - assert (Hn : 0 < String.length truncation_notice) by (vm_compute; lia).
    destruct (Nat.ltb_spec limit
                (String.length (String.append (slice0 limit text) truncation_notice)))
      as [_|Hle]; [|lia].
    now rewrite Hpre.
  - destruct (Nat.ltb_spec limit (String.length text)); [lia | reflexivity].
Qed.

End Clip.

(** X11.  [formatResult] returns a text of at most
    [MAX_CONTENT_LENGTH] characters plus the truncation notice: a text
    within the limit is returned unchanged (its length is kept), a
    longer one is cut to exactly the limit followed by the notice; in
    both cases the first [MAX_CONTENT_LENGTH] characters of the result
    are those of the input. *)
Theorem formatResult_bounded :
  forall (Json : Type) (stringify : Json -> string) (data : string + Json),
    String.length (formatResult stringify data) <=
      MAX_CONTENT_LENGTH + String.length truncation_notice /\
    String.length (formatResult stringify data) =
      (if MAX_CONTENT_LENGTH <? String.length (text_of stringify data)
       then MAX_CONTENT_LENGTH + String.length truncation_notice
       else String.length (text_of stringify data)) /\
    slice0 MAX_CONTENT_LENGTH (formatResult stringify data) =
      slice0 MAX_CONTENT_LENGTH (text_of stringify data) /\
    (String.length (text_of stringify data) <= MAX_CONTENT_LENGTH ->
       formatResult stringify data = text_of stringify data).
Proof.
  intros Json stringify data. unfold formatResult.
  change clip with (clip_at MAX_CONTENT_LENGTH).
  generalize MAX_CONTENT_LENGTH as limit. intros limit.
  pose proof (clip_at_length limit (text_of stringify data)) as Hlen.
  split; [|split; [exact Hlen|split; [apply clip_at_prefix|]]].
  - rewrite Hlen.
    destruct (Nat.ltb_spec limit (String.length (text_of stringify data))); lia.
  - intros Hshort. unfold clip_at.
    destruct (Nat.ltb_spec limit (String.length (text_of stringify data)));
      [lia | reflexivity].
Qed.

Lemma formatResult_bounded_witness :
  formatResult (fun n : nat => "{}"%string) (inl "ok"%string) = "ok"%string.
Proof.
  apply (formatResult_bounded nat (fun n : nat => "{}"%string) (inl "ok"%string)).
  apply Nat.leb_le. vm_compute. reflexivity.
Defined.

(** X12.  [formatResult] is idempotent on text: formatting an already
    formatted text changes nothing, so a truncated response that passes
    through it again keeps its single notice. *)
Theorem formatResult_idempotent :
  forall (Json : Type) (stringify : Json -> string) (data : string + Json),
    formatResult stringify (inl (formatResult stringify data)) =
    formatResult stringify data.
Proof.
  intros Json stringify data. unfold formatResult. simpl.
  change clip with (clip_at MAX_CONTENT_LENGTH). apply clip_at_idempotent.
Qed.

(** ** [parseJsonlStream] *)

Section Jsonl.

(** [JSON.parse], [None] when it throws, and [String.prototype.trim]. *)
Variable Json : Type.
Variable parse : string -> option Json.
Variable trim : string -> string.

Definition is_newline (ch : ascii) : bool := Ascii.eqb ch (ascii_of_nat 10).
Definition is_cr (ch : ascii) : bool := Ascii.eqb ch (ascii_of_nat 13).

(** [buffer.indexOf("\n")]; [None] stands for -1. *)
Fixpoint indexOf_newline (buffer : string) : option nat :=
  match buffer with
  | EmptyString => None
  | String ch rest =>
      if is_newline ch then Some 0 else option_map S (indexOf_newline rest)
  end.

(** [buffer.slice(n)] *)
Fixpoint slice_from (n : nat) (s : string) : string :=
  match n, s with
  | 0, _ => s
  | S _, EmptyString => EmptyString
  | S n', String _ rest => slice_from n' rest
  end.

(** [line.replace(/\r$/, empty)]: one carriage return at the very end goes. *)
Fixpoint strip_cr (line : string) : string :=
  match line with
  | EmptyString => EmptyString
  | String ch EmptyString => if is_cr ch then EmptyString else line
  | String ch rest => String ch (strip_cr rest)
  end.

(** [try { results.push(JSON.parse(line)) } catch { }] *)
Definition push_parsed (results : list Json) (line : string) : list Json :=
  match parse line with
  | Some value => results ++ [value]
  | None => results
  end.

(** The inner [while] loop: cut complete lines off the front of the
    buffer.  Every iteration shortens the buffer, so its length bounds
    the number of iterations. *)
Fixpoint drain (fuel : nat) (buffer : string) (results : list Json)
    : string * list Json :=
  match fuel with
  | 0 => (buffer, results)
  | S fuel' =>
      match indexOf_newline buffer with
      | None => (buffer, results)
      | Some newlineIdx =>
          let line := strip_cr (slice0 newlineIdx buffer) in
          let buffer' := slice_from (newlineIdx + 1) buffer in
          if String.length line =? 0
          then drain fuel' buffer' results
          else drain fuel' buffer' (push_parsed results line)
      end
  end.

(** One [reader.read()] that delivered a chunk; [chunk] is the text the
    streaming [TextDecoder] returned for it. *)
Definition on_chunk (st : string * list Json) (chunk : string)
    : string * list Json :=
  let buffer := String.append (fst st) chunk in
  drain (String.length buffer) buffer (snd st).

(** The [reader.read()] that reported [done]. *)
Definition on_done (st : string * list Json) : list Json :=
  let remaining := trim (fst st) in
  if 0 <? String.length remaining
  then push_parsed (snd st) remaining
  else snd st.

Definition parseJsonlStream (chunks : list string) : list Json :=
  on_done (fold_left on_chunk chunks (EmptyString, [])).

(** *** The text seen as lines *)

(** The complete lines of a text (without their newline) and what
    follows the last newline. *)
Fixpoint lines_rest (text : string) : list string * string :=
  match text with
  | EmptyString => ([], EmptyString)
  | String ch text' =>
      let (ls, r) := lines_rest text' in
      if is_newline ch then (EmptyString :: ls, r)
      else match ls with
           | [] => ([], String ch r)
           | l :: ls' => (String ch l :: ls', r)
           end
  end.

(** The text made of the given lines, each followed by a newline, and
    of a last piece. *)
Fixpoint join_lines (ls : list string) (rest : string) : string :=
  match ls with
  | [] => rest
  | l :: ls' => String.append l (String (ascii_of_nat 10) (join_lines ls' rest))
  end.

Fixpoint no_newline (s : string) : bool :=
  match s with
  | EmptyString => true
  | String ch s' => negb (is_newline ch) && no_newline s'
  end.

(** What one line contributes. *)
Definition line_results (raw : string) : list Json :=
  let line := strip_cr raw in
  if String.length line =? 0 then []
  else match parse line with
       | Some value => [value]
       | None => []
       end.

(** What the text after the last newline contributes at the end. *)
Definition tail_results (rest : string) : list Json :=
  let remaining := trim rest in
  if 0 <? String.length remaining
  then match parse remaining with
       | Some value => [value]
       | None => []
       end
  else [].

Definition join_chunks (chunks : list string) : string :=
  fold_right String.append EmptyString chunks.

(** *** The loop computes the lines *)

Lemma slice0_cons n ch s : slice0 (S n) (String ch s) = String ch (slice0 n s).
Proof. reflexivity. Qed.

Lemma slice0_zero s : slice0 0 s = EmptyString.
Proof. now destruct s. Qed.

Lemma lines_rest_no_newline s :
  indexOf_newline s = None -> lines_rest s = ([], s).
Proof.
  induction s as [|ch s IH]; simpl; [reflexivity|].
  destruct (is_newline ch); [discriminate|].
  destruct (indexOf_newline s); [discriminate|].
  intros _. now rewrite IH.
Qed.

Lemma lines_rest_at_newline : forall s idx,
  indexOf_newline s = Some idx ->
  lines_rest s =
    (slice0 idx s :: fst (lines_rest (slice_from (idx + 1) s)),
     snd (lines_rest (slice_from (idx + 1) s))) /\
  String.length (slice_from (idx + 1) s) < String.length s.
Proof.
  induction s as [|ch s IH]; simpl; intros idx H; [discriminate|].
  destruct (is_newline ch) eqn:En.
  - injection H as <-. simpl. rewrite slice0_zero.
    destruct (lines_rest s) as [ls r]. split; [reflexivity | lia].
  - destruct (indexOf_newline s) as [idx'|]; [|discriminate].
    injection H as <-. destruct (IH idx' eq_refl) as [Hl Hlen].
    rewrite Hl. simpl. split; [reflexivity | lia].
Qed.

Definition step_line (results : list Json) (raw : string) : list Json :=
  results ++ line_results raw.

Lemma step_line_spec results raw :
  step_line results raw =
  if String.length (strip_cr raw) =? 0 then results
  else push_parsed results (strip_cr raw).
Proof.
  unfold step_line, line_results, push_parsed.
  destruct (String.length (strip_cr raw) =? 0); [apply app_nil_r|].
  destruct (parse (strip_cr raw)); [reflexivity | apply app_nil_r].
Qed.

Lemma fold_step_line ls : forall results,
  fold_left step_line ls results = results ++ flat_map line_results ls.
Proof.
  induction ls as [|l ls IH]; intros results; simpl.
  - now rewrite app_nil_r.
  - rewrite IH. unfold step_line. now rewrite <- app_assoc.
Qed.

Lemma drain_spec : forall fuel buffer results,
  String.length buffer <= fuel ->
  drain fuel buffer results =
    (snd (lines_rest buffer),
     results ++ flat_map line_results (fst (lines_rest buffer))).
Proof.
  induction fuel as [|fuel IH]; intros buffer results Hlen.
  - destruct buffer; [|simpl in Hlen; lia]. simpl. now rewrite app_nil_r.
  - simpl. destruct (indexOf_newline buffer) as [idx|] eqn:Ei.
    + destruct (lines_rest_at_newline buffer idx Ei) as [Hl Hshort].
      rewrite Hl. cbn [fst snd flat_map].
      assert (Hstep :
        (if String.length (strip_cr (slice0 idx buffer)) =? 0
         then drain fuel (slice_from (idx + 1) buffer) results
         else drain fuel (slice_from (idx + 1) buffer)
                (push_parsed results (strip_cr (slice0 idx buffer)))) =
        drain fuel (slice_from (idx + 1) buffer)
          (step_line results (slice0 idx buffer))).
      { rewrite step_line_spec.
        destruct (String.length (strip_cr (slice0 idx buffer)) =? 0); reflexivity. }
      rewrite Hstep, IH by lia. unfold step_line. now rewrite <- app_assoc.
    + rewrite (lines_rest_no_newline buffer Ei). simpl. now rewrite app_nil_r.
Qed.

(** *** Splitting is compatible with concatenation *)

Lemma lines_rest_app : forall a c,
  lines_rest (String.append a c) =
    (fst (lines_rest a) ++ fst (lines_rest (String.append (snd (lines_rest a)) c)),
     snd (lines_rest (String.append (snd (lines_rest a)) c))).
Proof.
  induction a as [|ch a IH]; intros c; simpl.
  - now destruct (lines_rest c).
  - rewrite IH. destruct (lines_rest a) as [la ra]. simpl.
    destruct (is_newline ch) eqn:En; simpl.
    + reflexivity.
    + destruct la as [|l la]; simpl.
      * rewrite En. destruct (lines_rest (String.append ra c)) as [l2 r2]. simpl.
        now destruct l2.
      * reflexivity.
Qed.

Lemma lines_rest_rest s : lines_rest (snd (lines_rest s)) = ([], snd (lines_rest s)).
Proof.
  induction s as [|ch s IH]; simpl; [reflexivity|].
  destruct (lines_rest s) as [ls r]. simpl in IH.
  destruct (is_newline ch) eqn:En; simpl; [assumption|].
  destruct ls; simpl; [|assumption].
  now rewrite IH, En.
Qed.

Lemma append_assoc a b c :
  String.append (String.append a b) c = String.append a (String.append b c).
Proof. induction a; simpl; congruence. Qed.

Lemma append_empty_r a : String.append a EmptyString = a.
Proof. induction a; simpl; congruence. Qed.

Lemma feed_chunks : forall chunks buffer results,
  lines_rest buffer = ([], buffer) ->
  fold_left on_chunk chunks (buffer, results) =
    (snd (lines_rest (String.append buffer (join_chunks chunks))),
     results ++
     flat_map line_results
       (fst (lines_rest (String.append buffer (join_chunks chunks))))).
Proof.
  induction chunks as [|chunk chunks IH]; intros buffer results Hb; simpl.
  - rewrite append_empty_r, Hb. simpl. now rewrite app_nil_r.
  - unfold on_chunk at 2. simpl. rewrite drain_spec by lia.
    rewrite IH by apply lines_rest_rest.
    rewrite <- append_assoc.
    rewrite (lines_rest_app (String.append buffer chunk) (join_chunks chunks)).
    simpl. now rewrite flat_map_app, app_assoc.
Qed.

Lemma lines_rest_join : forall ls rest,
  forallb no_newline ls = true -> no_newline rest = true ->
  lines_rest (join_lines ls rest) = (ls, rest).
Proof.
  assert (Hpre : forall l t,
    no_newline l = true ->
    lines_rest (String.append l (String (ascii_of_nat 10) t)) =
      (l :: fst (lines_rest t), snd (lines_rest t))).
  { induction l as [|ch l IH]; intros t Hl; simpl in *.
    - now destruct (lines_rest t).
    - apply andb_prop in Hl as [Hch Hl]. rewrite (IH t Hl).
      destruct (is_newline ch); [discriminate | reflexivity]. }
  assert (Hrest : forall r, no_newline r = true -> lines_rest r = ([], r)).
  { induction r as [|ch r IH]; simpl; intros Hr; [reflexivity|].
    apply andb_prop in Hr as [Hch Hr]. rewrite (IH Hr).
    destruct (is_newline ch); [discriminate | reflexivity]. }
  induction ls as [|l ls IH]; intros rest Hls Hr; simpl in *.
  - now apply Hrest.
  - apply andb_prop in Hls as [Hl Hls]. rewrite (Hpre l _ Hl), (IH rest Hls Hr).
    reflexivity.
Qed.

Lemma join_lines_rest : forall text,
  join_lines (fst (lines_rest text)) (snd (lines_rest text)) = text /\
  forallb no_newline (fst (lines_rest text)) = true /\
  no_newline (snd (lines_rest text)) = true.
Proof.
  induction text as [|ch text IH]; simpl; [auto|].
  destruct (lines_rest text) as [ls r]. simpl in IH. destruct IH as [Hj [Hl Hr]].
  destruct (is_newline ch) eqn:En; simpl.
  - unfold is_newline in En. apply Ascii.eqb_eq in En. subst ch.
    now rewrite Hj, Hl, Hr.
  - destruct ls as [|l ls]; simpl in *.
    + rewrite En, Hr, Hj. auto.
    + apply andb_prop in Hl as [Hl1 Hl2]. rewrite En, Hl1, Hl2, Hr, Hj. auto.
Qed.

(** X13.  The result of [parseJsonlStream] does not depend on how the
    stream is cut into chunks: any sequence of chunks gives the values
    that the whole text delivered as one chunk gives, so a line split
    across two reads is parsed as one line. *)
Theorem parseJsonlStream_chunking :
  forall chunks,
    parseJsonlStream chunks = parseJsonlStream [join_chunks chunks].
Proof.
  intros chunks. unfold parseJsonlStream.
  rewrite (feed_chunks chunks EmptyString []) by reflexivity.
  rewrite (feed_chunks [join_chunks chunks] EmptyString []) by reflexivity.
  simpl. now rewrite append_empty_r.
Qed.

(** X14.  [parseJsonlStream] returns, in order, one value for every
    complete line of the text that is non-empty once a final carriage
    return is removed and that [JSON.parse] accepts, followed by one
    value for the text after the last newline when its trimmed form is
    non-empty and parses.  Empty lines and lines that do not parse
    contribute nothing and do not disturb the lines around them. *)
Theorem parseJsonlStream_lines :
  forall chunks,
    parseJsonlStream chunks =
      flat_map line_results (fst (lines_rest (join_chunks chunks))) ++
      tail_results (snd (lines_rest (join_chunks chunks))) /\
    join_lines (fst (lines_rest (join_chunks chunks)))
               (snd (lines_rest (join_chunks chunks))) = join_chunks chunks /\
    forallb no_newline (fst (lines_rest (join_chunks chunks))) = true /\
    no_newline (snd (lines_rest (join_chunks chunks))) = true.
Proof.
  intros chunks. split; [|apply join_lines_rest].
  unfold parseJsonlStream.
  rewrite (feed_chunks chunks EmptyString []) by reflexivity. simpl.
  unfold on_done, tail_results, push_parsed. simpl.
  destruct (0 <? String.length (trim (snd (lines_rest (join_chunks chunks)))));
    [|now rewrite app_nil_r].
  destruct (parse (trim (snd (lines_rest (join_chunks chunks)))));
    [reflexivity | now rewrite app_nil_r].
Qed.

Lemma strip_cr_append_cr : forall line,
  strip_cr (String.append line (String (ascii_of_nat 13) EmptyString)) = line.
Proof.
  induction line as [|ch line IH]; simpl.
  - reflexivity.
  - rewrite IH. destruct (String.append line _) eqn:E; [|reflexivity].
    destruct line; discriminate.
Qed.

(** X15.  A line ended by CR LF gives the same values as the same line
    ended by LF alone, wherever it stands in the text, provided the
    line's own content does not end in a carriage return (only one is
    removed). *)
Theorem parseJsonlStream_crlf :
  forall before line after rest,
    forallb no_newline before = true ->
    no_newline line = true ->
    forallb no_newline after = true ->
    no_newline rest = true ->
    strip_cr line = line ->
    parseJsonlStream
      [join_lines
         (before ++ [String.append line (String (ascii_of_nat 13) EmptyString)] ++ after)
         rest] =
    parseJsonlStream [join_lines (before ++ [line] ++ after) rest].
Proof.
  intros before line after rest Hb Hl Ha Hr Hline.
  assert (Hcr : no_newline (String.append line (String (ascii_of_nat 13) EmptyString))
                = true).
  { clear - Hl. induction line as [|ch line IH]; simpl in *; [reflexivity|].
    apply andb_prop in Hl as [-> Hl]. now rewrite IH. }
  destruct (parseJsonlStream_lines
              [join_lines
                 (before ++
                  [String.append line (String (ascii_of_nat 13) EmptyString)] ++ after)
                 rest]) as [-> _].
  destruct (parseJsonlStream_lines [join_lines (before ++ [line] ++ after) rest])
    as [-> _].
  simpl. rewrite !append_empty_r.
  rewrite !lines_rest_join; auto.
  - simpl. rewrite !flat_map_app. simpl. unfold line_results at 2 5.
    now rewrite strip_cr_append_cr, Hline.
  - rewrite forallb_app. simpl. now rewrite Hb, Hl, Ha.
  - rewrite forallb_app. simpl. now rewrite Hb, Hcr, Ha.
Qed.

End Jsonl.

(** A stand-in for [JSON.parse] that accepts the lines starting with an
    opening brace, and a [trim] that leaves its argument alone. *)
Definition braces_only (line : string) : option string :=
  if String.prefix "{" line then Some line else None.

Definition CRLF : string := String (ascii_of_nat 13) newline.

(** Two records and a blank line, a malformed line, and an unfinished
    last line, delivered in three chunks that cut through a record. *)
Example parseJsonlStream_sample :
  parseJsonlStream string braces_only (fun s => s)
    [ String.append "{a}" (String.append CRLF "{b");
      String.append "}" (String.append newline (String.append newline "oops"));
      String.append newline "{c" ]
  = ["{a}"; "{b}"; "{c"]%string.
Proof. vm_compute. reflexivity. Qed.

Lemma parseJsonlStream_crlf_witness :
  parseJsonlStream string braces_only (fun s => s)
    [join_lines (["{a}"%string] ++
                 [String.append "{b}" (String (ascii_of_nat 13) EmptyString)] ++
                 ["{c}"%string])%list "{d}"] =
  parseJsonlStream string braces_only (fun s => s)
    [join_lines (["{a}"%string] ++ ["{b}"%string] ++ ["{c}"%string])%list "{d}"].
Proof.
  apply (parseJsonlStream_crlf string braces_only (fun s => s)
           ["{a}"%string] "{b}" ["{c}"%string] "{d}"); reflexivity.
Defined.

End Api.

(** * Concrete instances *)

Lemma getPage_frame_witness :
  JsMap.get (sessions (fst (getPage (state two_sessions) "s1" 5))) "s2" =
    JsMap.get (sessions (state two_sessions)) "s2" /\
  JsMap.get (sessions (fst (getPage (state two_sessions) "s1" 5))) "s1" =
    Some (mkSession (mkBrowser 0 false) 0 5).
Proof.
  destruct (getPage_frame (state two_sessions) "s1" 5) as [_ [_ [Hother [Hself _]]]].
  split.
  - apply Hother. discriminate.
  - exact Hself.
Defined.

Definition fleet_table : JsMap.t (SpiderBrowserManager.Session nat) :=
  [Some ("s1"%string, SpiderBrowserManager.mkSession 7 0)].

Lemma getBrowser_getPage_agree_witness :
  JsMap.get
    (fst (SpiderBrowserManager.getBrowser fleet_table "s1" 5)) "s1" =
    Some (SpiderBrowserManager.mkSession 7 5) /\
  snd (SpiderBrowserManager.getPage (fun b : nat => b + 100)
         (fst (SpiderBrowserManager.getBrowser fleet_table "s1" 5)) "s1" 6) =
    inr 107 /\
  SpiderBrowserManager.getBrowser fleet_table "nope" 5 =
    (fleet_table, inl (Error not_found_message)).
Proof.
  destruct (SpiderBrowserManager.getBrowser_getPage_agree nat nat
              (fun b : nat => b + 100) fleet_table "s1" 5 6)
    as [_ [_ [_ [Hfound _]]]].
  destruct (Hfound 7 eq_refl) as [H1 [_ [H2 _]]].
  destruct (SpiderBrowserManager.getBrowser_getPage_agree nat nat
              (fun b : nat => b + 100) fleet_table "nope" 5 6)
    as [_ [_ [Habsent _]]].
  exact (conj H1 (conj H2 (Habsent eq_refl))).
Defined.
